(** * The linter engine of [src/linter.ts], embedded in Rocq

    The class [Linter] lints files in consecutive runs.  Its private fields
    [failures] and [fixes], the file system it writes fixed text to, and the
    warning channel used when a rule crashes are all threaded explicitly
    through a state-and-exception monad.  Collaborators that live in other
    modules of the repository (rule loader, suppression resolver, replacement
    merger, formatter registry, path resolution) are the fields of the class
    [Collaborators]. *)

From Stdlib Require Import Ascii String.
From stdpp Require Import base option list strings gmap.

Local Open Scope string_scope.
Local Open Scope list_scope.

(** ** Data model *)

(** [RuleSeverity] of [language/rule/rule.ts]: ["warning" | "error" | "off"]. *)
Inductive RuleSeverity := warning | error | off.

#[global] Instance RuleSeverity_eq_dec : EqDecision RuleSeverity.
Proof. solve_decision. Defined.

(** A [Replacement] is a text edit; a [Fix] is one replacement or an array of
    them, here always the array. *)
Module Replacement.
Record t := mk { start : nat; length : nat; text : string }.
End Replacement.

Definition Fix := list Replacement.t.

(** The TypeScript objects the linter looks at: a source file is the parsed
    form of a file name and a text, a program hands out the source files it
    was created with. *)
Module ts.
Record SourceFile := mkSourceFile { fileName : string; text : string }.
Record Program := mkProgram { getSourceFile : string -> option SourceFile }.
End ts.

(** [RuleFailure]: the fields are named after the accessor methods the linter
    calls.  Failures are values here: every run of a rule produces fresh
    objects, so [setRuleSeverity] returns the stamped copy. *)
Record RuleFailure := mkRuleFailure {
  getRuleName : string;
  getFileName : string;
  getStartPosition : nat;
  getEndPosition : nat;
  getFailure : string;
  getFix : option Fix;
  getRuleSeverity : RuleSeverity;
}.

Definition hasFix (f : RuleFailure) : bool :=
  match getFix f with Some _ => true | None => false end.

Definition setRuleSeverity (value : RuleSeverity) (f : RuleFailure) : RuleFailure :=
  {| getRuleName := getRuleName f;
     getFileName := getFileName f;
     getStartPosition := getStartPosition f;
     getEndPosition := getEndPosition f;
     getFailure := getFailure f;
     getFix := getFix f;
     getRuleSeverity := value |}.

(** What a JavaScript [throw] can carry: an [Error], the subclass
    [FatalError] of [error.ts], or any other value (shown through its string
    conversion). *)
Inductive Thrown :=
| Error (message : string)
| FatalError (message : string)
| NonError (shown : string).

Definition isError (e : Thrown) : bool :=
  match e with Error _ | FatalError _ => true | NonError _ => false end.

Definition thrownMessage (e : Thrown) : string :=
  match e with Error m | FatalError m | NonError m => m end.

(** [IOptions] as far as the linter reads it, and [IRule]: [apply] is always
    there, [applyWithProgram] only on typed rules ([isTypedRule] tests for its
    presence).  Either entry point returns its failures or throws. *)
Record IOptions := mkOptions {
  ruleName : string;
  ruleSeverity : RuleSeverity;
}.

Record IRule := mkRule {
  getOptions : IOptions;
  apply : ts.SourceFile -> Thrown + list RuleFailure;
  applyWithProgram : option (ts.SourceFile -> ts.Program -> Thrown + list RuleFailure);
}.

Definition isTypedRule (rule : IRule) : bool :=
  match applyWithProgram rule with Some _ => true | None => false end.

Record IFormatter := mkFormatter {
  format : list RuleFailure -> list RuleFailure -> string;
}.

(** The field [fix] is spelled [fixOption]: [fix] is a reserved word. *)
Record ILinterOptions := mkLinterOptions {
  fixOption : bool;
  formatter : option string;
  formattersDirectory : option string;
  rulesDirectory : list string;
}.

Record LintResult := mkLintResult {
  errorCount : nat;
  result_failures : list RuleFailure;
  result_fixes : list RuleFailure;
  result_format : string;
  output : string;
  warningCount : nat;
}.

(** ** Collaborators

    Code of the repository that [linter.ts] imports.  Each field is the
    interface the linter depends on. *)
Class Collaborators := {
  (** [path.normalize(fileName).replace(/\\/g, "/")] of [utils.getSourceFile] *)
  normalizedName : string -> string;
  (** [path.resolve] *)
  path_resolve : string -> string;
  (** the template tag [dedent] of [utils.ts], applied to the literal parts
      of a template and the values between them *)
  dedent : list string -> list string -> string;
  (** whether an inline disable directive of the source file covers a failure *)
  isDisabled : ts.SourceFile -> RuleFailure -> bool;
  (** [Replacement.applyFixes(content, fixes)]; an entry is [None] where
      [getFix()] was undefined *)
  Replacement_applyFixes : string -> list (option Fix) -> string;
  (** [findFormatter(name, formattersDirectory)] *)
  findFormatter : string -> option string -> option IFormatter;
  getRelativePath : option string -> option string;
  (** the raw rule table of a configuration file, [convertRuleOptions] and
      [loadRules] *)
  RawRules : Type;
  convertRuleOptions : RawRules -> list IOptions;
  loadRules : list IOptions -> list string -> bool -> list IRule;
}.

Record IConfigurationFile `{Collaborators} := mkConfiguration {
  rules : RawRules;
  jsRules : RawRules;
  config_rulesDirectory : list string;
}.

(** ** State and exceptions *)

(** Everything a lint run can change or depends on: the two private fields
    of the linter, the disk (keyed by resolved path) with a log of the
    [writeFileSync] calls that went through, what [readFileSync] and
    [writeFileSync] throw for the paths they cannot read or write (a file
    without permission, a missing directory, a read-only file), and the
    warning channel ([showWarningOnce] remembers what it printed). *)
Record State := mkState {
  failures : list RuleFailure;
  fixes : list RuleFailure;
  disk : gmap string string;
  writes : list (string * string);
  readErrors : gmap string Thrown;
  writeErrors : gmap string Thrown;
  shownWarnings : gset string;
  console : list string;
}.

Definition M (A : Type) : Type := State -> (Thrown + A) * State.

Definition ret {A} (a : A) : M A := fun st => (inr a, st).

Definition throw {A} (e : Thrown) : M A := fun st => (inl e, st).

Definition bind {A B} (m : M A) (k : A -> M B) : M B :=
  fun st =>
    match m st with
    | (inr a, st') => k a st'
    | (inl e, st') => (inl e, st')
    end.

Notation "'let!' x ':=' m 'in' k" := (bind m (fun x => k))
  (at level 10, x pattern, m at level 100, k at level 200).

Definition modify (f : State -> State) : M unit := fun st => (inr tt, f st).

Definition set_failures (v : list RuleFailure) (st : State) : State :=
  mkState v (fixes st) (disk st) (writes st) (readErrors st) (writeErrors st)
          (shownWarnings st) (console st).

Definition set_fixes (v : list RuleFailure) (st : State) : State :=
  mkState (failures st) v (disk st) (writes st) (readErrors st) (writeErrors st)
          (shownWarnings st) (console st).

Definition set_disk (d : gmap string string) (w : list (string * string))
    (st : State) : State :=
  mkState (failures st) (fixes st) d w (readErrors st) (writeErrors st)
          (shownWarnings st) (console st).

Definition set_warnings (shown : gset string) (out : list string)
    (st : State) : State :=
  mkState (failures st) (fixes st) (disk st) (writes st) (readErrors st) (writeErrors st)
          shown out.

(** Array helpers with an effectful callback: [flatMap] of [utils.ts] and
    [Map.prototype.forEach] over the entries in insertion order, the latter
    threading the one captured variable its callback assigns. *)
Fixpoint flatMap {A B} (inputs : list A) (getPieces : A -> M (list B)) : M (list B) :=
  match inputs with
  | [] => ret []
  | input :: rest =>
      let! pieces := getPieces input in
      let! others := flatMap rest getPieces in
      ret (pieces ++ others)
  end.

Fixpoint forEach {A V} (entries : list A) (callback : V -> A -> M V) (captured : V) : M V :=
  match entries with
  | [] => ret captured
  | entry :: rest =>
      let! captured' := callback captured entry in
      forEach rest callback captured'
  end.

(** [createMultiMap]: a [Map] keeps its keys in the order of their first
    insertion, so it is an association list; [vs.push(v)] extends the array
    of an existing key, [map.set(k, [v])] adds a key at the end. *)
Fixpoint multiMapAdd {K V} `{EqDecision K} (k : K) (v : V) (map : list (K * list V))
    : list (K * list V) :=
  match map with
  | [] => [(k, [v])]
  | (k', vs) :: rest =>
      if decide (k = k') then (k', vs ++ [v]) :: rest
      else (k', vs) :: multiMapAdd k v rest
  end.

Definition createMultiMap {T K V} `{EqDecision K}
    (inputs : list T) (getPair : T -> option (K * V)) : list (K * list V) :=
  foldl (fun map input =>
           match getPair input with
           | Some (k, v) => multiMapAdd k v map
           | None => map
           end) [] inputs.

(** [/\.jsx?$/i.test(fileName)] *)
Definition lowerAscii (c : ascii) : ascii :=
  let n := nat_of_ascii c in
  if (65 <=? n)%nat && (n <=? 90)%nat then ascii_of_nat (n + 32) else c.

Fixpoint lowerCase (s : string) : string :=
  match s with
  | EmptyString => EmptyString
  | String c rest => String (lowerAscii c) (lowerCase rest)
  end.

Fixpoint endsWith (suffix s : string) : bool :=
  String.eqb suffix s ||
  match s with
  | EmptyString => false
  | String _ rest => endsWith suffix rest
  end.

Definition isJsFileName (fileName : string) : bool :=
  endsWith ".js" (lowerCase fileName) || endsWith ".jsx" (lowerCase fileName).

(** The line break of a source text. *)
Definition newline : string := String (ascii_of_nat 10) EmptyString.

(** ** The class [Linter] *)

Section Linter.
Context `{Collaborators}.
(** The two constructor parameters, [private options] and
    [private program?]. *)
Variable options : ILinterOptions.
Variable program : option ts.Program.

(** *** Node and repository functions called by the linter *)

(** [fs.readFileSync] throws when the file cannot be read or is not
    there. *)
Definition readFileSync (filePath : string) : M string :=
  fun st =>
    match readErrors st !! path_resolve filePath with
    | Some thrown => (inl thrown, st)
    | None =>
        match disk st !! path_resolve filePath with
        | Some content => (inr content, st)
        | None =>
            (inl (Error ("ENOENT: no such file or directory, open '" +:+ filePath +:+ "'")),
             st)
        end
    end.

(** [fs.writeFileSync] overwrites the whole file, or throws and leaves the
    disk alone when the path cannot be written. *)
Definition writeFileSync (filePath data : string) : M unit :=
  fun st =>
    match writeErrors st !! path_resolve filePath with
    | Some thrown => (inl thrown, st)
    | None =>
        (inr tt, set_disk (<[path_resolve filePath := data]> (disk st))
                          (writes st ++ [(filePath, data)]) st)
    end.

Definition console_warn (message : string) : M unit :=
  modify (fun st => set_warnings (shownWarnings st) (console st ++ [message]) st).

(** Modelled from the spec: [showWarningOnce] of [error.ts] is not among the
    sources; a warning is "reported once per distinct message",
    "deduplicated process-wide". *)
Definition showWarningOnce (message : string) : M unit :=
  fun st =>
    if decide (message ∈ shownWarnings st) then (inr tt, st)
    else (inr tt, set_warnings ({[message]} ∪ shownWarnings st)
                               (console st ++ [message]) st).

(** Modelled from the spec: [removeDisabledFailures] of
    [enableDisableRules.ts] is not among the sources; "given a parsed source
    and a raw failure list, returns the subset not covered by inline disable
    directives". *)
Definition removeDisabledFailures (sourceFile : ts.SourceFile)
    (failures : list RuleFailure) : list RuleFailure :=
  List.filter (fun failure => negb (isDisabled sourceFile failure)) failures.

(** Modelled from the spec: [utils.getSourceFile] is not among the sources;
    "parse(path, text) -> SourceView", the parsed representation of that
    text. *)
Definition utils_getSourceFile (fileName source : string) : ts.SourceFile :=
  ts.mkSourceFile (normalizedName fileName) source.

(** *** Private methods *)

(** The literal parts of the template [INVALID_SOURCE_ERROR]: the line
    break and the twenty spaces before the sentence, and the line break and
    the sixteen spaces after it. *)
Definition INVALID_SOURCE_ERROR_parts : list string :=
  [newline +:+ "                    Invalid source file: ";
   ". Ensure that the files supplied to lint have a .ts, .tsx, .d.ts, .js or .jsx extension."
     +:+ newline +:+ "                "].

Definition getSourceFile (fileName source : string) : M ts.SourceFile :=
  match program with
  | Some program =>
      match ts.getSourceFile program fileName with
      | None => throw (FatalError (dedent INVALID_SOURCE_ERROR_parts [fileName]))
      | Some sourceFile => ret sourceFile
      end
  | None => ret (utils_getSourceFile fileName source)
  end.

Definition getEnabledRules (configuration : IConfigurationFile) (isJs : bool)
    : list IRule :=
  let ruleOptionsList :=
    convertRuleOptions (if isJs then jsRules configuration else rules configuration) in
  let rulesDirectories :=
    rulesDirectory options ++ config_rulesDirectory configuration in
  loadRules ruleOptionsList rulesDirectories isJs.

(** The [try] block picks the entry point, the [catch] block turns anything
    thrown into a warning and an empty result. *)
Definition applyRule (rule : IRule) (sourceFile : ts.SourceFile)
    : M (list RuleFailure) :=
  let attempt :=
    match program, applyWithProgram rule with
    | Some program, Some typedApply => typedApply sourceFile program
    | _, _ => apply rule sourceFile
    end in
  match attempt with
  | inr ruleFailures => ret ruleFailures
  | inl thrown =>
      let! _ := (if isError thrown
                 then showWarningOnce ("Warning: " +:+ thrownMessage thrown)
                 else console_warn ("Warning: " +:+ thrownMessage thrown)) in
      ret []
  end.

Definition getAllFailures (sourceFile : ts.SourceFile) (enabledRules : list IRule)
    : M (list RuleFailure) :=
  let! failures := flatMap enabledRules (fun rule => applyRule rule sourceFile) in
  ret (removeDisabledFailures sourceFile failures).

(** The callback of [fixesByFile.forEach]; [source] is the variable of
    [applyFixes] it assigns. *)
Definition applyFileFixes (sourceFilePath : string) (source : string)
    (entry : string * list (option Fix)) : M string :=
  let '(filePath, fileFixes) := entry in
  if decide (path_resolve filePath = path_resolve sourceFilePath) then
    let source := Replacement_applyFixes source fileFixes in
    let! _ := writeFileSync filePath source in
    ret source
  else
    let! oldSource := readFileSync filePath in
    let! _ := writeFileSync filePath (Replacement_applyFixes oldSource fileFixes) in
    ret source.

Definition fixesByFile (fixableFailures : list RuleFailure)
    : list (string * list (option Fix)) :=
  createMultiMap fixableFailures (fun f => Some (getFileName f, getFix f)).

Definition applyFixes (sourceFilePath source : string)
    (fixableFailures : list RuleFailure) : M string :=
  forEach (fixesByFile fixableFailures) (applyFileFixes sourceFilePath) source.

(** [fileFailures.some((f) => f.hasFix() && f.getRuleName() === ruleName)] *)
Definition hasFixes (fileFailures : list RuleFailure) (rule : IRule) : bool :=
  existsb (fun f => hasFix f && String.eqb (getRuleName f) (ruleName (getOptions rule)))
          fileFailures.

(** The body of [if (hasFixes)] in the loop of [applyAllFixes], on the two
    variables [sourceFile] and [source] the loop updates. *)
Definition fixRule (sourceFileName : string) (rule : IRule)
    (current : ts.SourceFile * string) : M (ts.SourceFile * string) :=
  let '(sourceFile, source) := current in
  let! ruleFailures := applyRule rule sourceFile in
  let updatedFailures := removeDisabledFailures sourceFile ruleFailures in
  let fixableFailures := List.filter hasFix updatedFailures in
  let! _ := modify (fun st => set_fixes (fixes st ++ fixableFailures) st) in
  let! source := applyFixes sourceFileName source fixableFailures in
  let! sourceFile := getSourceFile sourceFileName source in
  ret (sourceFile, source).

Fixpoint fixRules (enabledRules : list IRule) (fileFailures : list RuleFailure)
    (sourceFileName : string) (current : ts.SourceFile * string)
    : M (ts.SourceFile * string) :=
  match enabledRules with
  | [] => ret current
  | rule :: rest =>
      if hasFixes fileFailures rule then
        let! current' := fixRule sourceFileName rule current in
        fixRules rest fileFailures sourceFileName current'
      else fixRules rest fileFailures sourceFileName current
  end.

Definition applyAllFixes (enabledRules : list IRule) (fileFailures : list RuleFailure)
    (sourceFile : ts.SourceFile) (sourceFileName : string) : M (list RuleFailure) :=
  let source := ts.text sourceFile in
  let! current := fixRules enabledRules fileFailures sourceFileName (sourceFile, source) in
  getAllFailures (fst current) enabledRules.

(** *** Public methods *)

(** [new Map(enabledRules.map(...))]: a later entry replaces an earlier one
    with the same key. *)
Definition ruleSeverityMap (enabledRules : list IRule) : gmap string RuleSeverity :=
  foldl (fun map rule =>
           <[ruleName (getOptions rule) := ruleSeverity (getOptions rule)]> map)
        ∅ enabledRules.

(** The loop that adds the rule severity to the failures. *)
Fixpoint addRuleSeverity (map : gmap string RuleSeverity)
    (fileFailures : list RuleFailure) : M (list RuleFailure) :=
  match fileFailures with
  | [] => ret []
  | failure :: rest =>
      match map !! getRuleName failure with
      | None =>
          throw (Error ("Severity for rule '" +:+ getRuleName failure +:+ "' not found"))
      | Some severity =>
          let! rest' := addRuleSeverity map rest in
          ret (setRuleSeverity severity failure :: rest')
      end
  end.

Definition lint (fileName source : string) (configuration : IConfigurationFile)
    : M unit :=
  let! sourceFile := getSourceFile fileName source in
  let isJs := isJsFileName fileName in
  let enabledRules := getEnabledRules configuration isJs in
  let! fileFailures := getAllFailures sourceFile enabledRules in
  if (length fileFailures =? 0)%nat then ret tt
  else
    let! fileFailures :=
      (if fixOption options && existsb hasFix fileFailures
       then applyAllFixes enabledRules fileFailures sourceFile fileName
       else ret fileFailures) in
    let! fileFailures := addRuleSeverity (ruleSeverityMap enabledRules) fileFailures in
    modify (fun st => set_failures (failures st ++ fileFailures) st).

Definition isErrorSeverity (failure : RuleFailure) : bool :=
  bool_decide (getRuleSeverity failure = error).

Definition getResult : M LintResult :=
  let formattersDirectory := getRelativePath (formattersDirectory options) in
  let formatterName := default "prose" (formatter options) in
  match findFormatter formatterName formattersDirectory with
  | Some Formatter =>
      fun st =>
        let output := format Formatter (failures st) (fixes st) in
        let errorCount := length (List.filter isErrorSeverity (failures st)) in
        (inr {| errorCount := errorCount;
                result_failures := failures st;
                result_fixes := fixes st;
                result_format := formatterName;
                output := output;
                warningCount := length (failures st) - errorCount |}, st)
  | None => throw (Error ("formatter '" +:+ formatterName +:+ "' not found"))
  end.

End Linter.

(** ** Derived notions used to state the properties *)

(** The body of the loop of [createMultiMap]. *)
Definition addPair {T K V} `{EqDecision K} (getPair : T -> option (K * V))
    (map : list (K * list V)) (input : T) : list (K * list V) :=
  match getPair input with
  | Some (k, v) => multiMapAdd k v map
  | None => map
  end.

Section Derived.
Context `{Collaborators}.
Variable program : option ts.Program.

(** [quiet st st']: going from [st] to [st'] changed neither the session's
    lists nor the disk; only warnings may have been printed. *)
Definition quiet (st st' : State) : Prop :=
  failures st' = failures st /\ fixes st' = fixes st /\
  disk st' = disk st /\ writes st' = writes st.

(** What the [try] block of [applyRule] evaluates to. *)
Definition ruleOutcome (rule : IRule) (sourceFile : ts.SourceFile)
    : Thrown + list RuleFailure :=
  match program, applyWithProgram rule with
  | Some program, Some typedApply => typedApply sourceFile program
  | _, _ => apply rule sourceFile
  end.

(** The failures [applyRule] returns, its [catch] applied: a function of
    rule and source file alone. *)
Definition ruleFailures (rule : IRule) (sourceFile : ts.SourceFile) : list RuleFailure :=
  match ruleOutcome rule sourceFile with
  | inr found => found
  | inl _ => []
  end.

(** The list [getAllFailures] returns. *)
Definition allFailures (sourceFile : ts.SourceFile) (enabledRules : list IRule)
    : list RuleFailure :=
  removeDisabledFailures sourceFile
    (flat_map (fun rule => ruleFailures rule sourceFile) enabledRules).

(** The fixable failures one iteration of the fix loop works with. *)
Definition freshFixableFailures (rule : IRule) (sourceFile : ts.SourceFile)
    : list RuleFailure :=
  List.filter hasFix (removeDisabledFailures sourceFile (ruleFailures rule sourceFile)).

(** Whether a failure is reported for the file being linted, as
    [applyFixes] decides it. *)
Definition targets (sourceFilePath : string) (f : RuleFailure) : bool :=
  bool_decide (path_resolve (getFileName f) = path_resolve sourceFilePath).

(** Merging the groups of a multimap into a text, one after the other. *)
Definition mergeGroups (content : string) (groups : list (string * list (option Fix)))
    : string :=
  foldl (fun content group => Replacement_applyFixes content (snd group)) content groups.

(** The groups of [fixesByFile] whose key resolves to the path [resolved]. *)
Definition groupsAt (resolved : string) (fixableFailures : list RuleFailure)
    : list (string * list (option Fix)) :=
  List.filter (fun group => bool_decide (path_resolve (fst group) = resolved))
              (fixesByFile fixableFailures).

(** Every file other than the linted one that a failure of the list is
    reported for is on the disk and can be read, so [readFileSync] will not
    throw. *)
Definition readable (sourceFilePath : string) (st : State)
    (fixableFailures : list RuleFailure) : bool :=
  forallb (fun f => targets sourceFilePath f ||
                    (bool_decide (is_Some (disk st !! path_resolve (getFileName f))) &&
                     bool_decide (readErrors st !! path_resolve (getFileName f) = None)))
          fixableFailures.

(** [getSourceFile] will find the file: there is no program, or the program
    has it. *)
Definition viewable (fileName : string) : bool :=
  match program with
  | Some program => bool_decide (is_Some (ts.getSourceFile program fileName))
  | None => true
  end.

(** The batch that reaches the severity loop of [lint]. *)
Definition finalBatch (options : ILinterOptions) (enabledRules : list IRule)
    (fileFailures : list RuleFailure) (sourceFile : ts.SourceFile) (fileName : string)
    : M (list RuleFailure) :=
  if fixOption options && existsb hasFix fileFailures
  then applyAllFixes program enabledRules fileFailures sourceFile fileName
  else ret fileFailures.

End Derived.

(** ** Further code of [linter.ts] and notions to state its properties *)

(** [l.substr(-5)]: the last characters of a string, all of it when it is
    shorter. *)
Definition substrFromEnd (count : nat) (s : string) : string :=
  String.substring (String.length s - count) count s.

(** [Linter.getFileNames], on the array [program.getSourceFiles()] returns:
    the file names that are not declaration files. *)
Definition getFileNames (sourceFiles : list ts.SourceFile) : list string :=
  List.filter (fun l => negb (String.eqb (substrFromEnd 5 l) ".d.ts"))
              (map ts.fileName sourceFiles).

(** The values [createMultiMap] has to collect under one key, in the order of
    the inputs. *)
Definition valuesOf {T K V} `{EqDecision K} (getPair : T -> option (K * V)) (k : K)
    (inputs : list T) : list V :=
  omap (fun input =>
          match getPair input with
          | Some (k', v) => if decide (k' = k) then Some v else None
          | None => None
          end) inputs.

(** The rules of a list that carry a given name. *)
Definition rulesNamed (name : string) (enabledRules : list IRule) : list IRule :=
  List.filter (fun rule => String.eqb (ruleName (getOptions rule)) name) enabledRules.

(** What the severity loop makes of one failure when the map has an entry
    for its rule. *)
Definition stamped (map : gmap string RuleSeverity) (failure : RuleFailure) : RuleFailure :=
  match map !! getRuleName failure with
  | Some severity => setRuleSeverity severity failure
  | None => failure
  end.

(** The keys of a list, each once, in the order in which they first
    occur. *)
Fixpoint distinct {K} `{EqDecision K} (keys : list K) : list K :=
  match keys with
  | [] => []
  | k :: rest => k :: List.filter (fun k' => negb (bool_decide (k' = k))) (distinct rest)
  end.

(** The keys of the inputs [createMultiMap] is given. *)
Definition keysOf {T K V} (getPair : T -> option (K * V)) (inputs : list T) : list K :=
  omap (fun input => fst <$> getPair input) inputs.

(** The file names a list of failures mentions, each once, in the order in
    which they first occur. *)
Definition fileNames (fixableFailures : list RuleFailure) : list string :=
  distinct (getFileName <$> fixableFailures).

(** The fixes of the failures reported under one file name, in the order of
    the failures. *)
Definition fixesFor (filePath : string) (fixableFailures : list RuleFailure)
    : list (option Fix) :=
  getFix <$> List.filter (fun f => String.eqb (getFileName f) filePath) fixableFailures.

(** The groups of fixes to merge, said without the multimap: one group for
    each file name, with the fixes reported under that name. *)
Definition groupsOf (fixableFailures : list RuleFailure)
    : list (string * list (option Fix)) :=
  (fun filePath => (filePath, fixesFor filePath fixableFailures))
    <$> fileNames fixableFailures.

Section MoreDerived.
Context `{Collaborators}.

(** The failures reported for the file at a resolved path. *)
Definition aimedAt (resolved : string) (fixableFailures : list RuleFailure)
    : list RuleFailure :=
  List.filter (fun f => bool_decide (path_resolve (getFileName f) = resolved))
              fixableFailures.

(** The writes that merging groups one after the other into a text makes:
    for each group its file name with the text merged so far. *)
Fixpoint mergeWrites (content : string) (groups : list (string * list (option Fix)))
    : list (string * string) :=
  match groups with
  | [] => []
  | (filePath, fileFixes) :: rest =>
      (filePath, Replacement_applyFixes content fileFixes)
      :: mergeWrites (Replacement_applyFixes content fileFixes) rest
  end.

(** The entries of a log of writes that went to the file at a resolved
    path. *)
Definition writesTo (resolved : string) (log : list (string * string))
    : list (string * string) :=
  List.filter (fun entry => bool_decide (path_resolve (fst entry) = resolved)) log.

(** [writeFileSync] will not throw for any file a failure of the list is
    reported for. *)
Definition writable (st : State) (fixableFailures : list RuleFailure) : bool :=
  forallb (fun f => bool_decide (writeErrors st !! path_resolve (getFileName f) = None))
          fixableFailures.

(** [during sourceFilePath st st']: what may have happened between [st] and
    [st'] while the file was linted, short of the final assignment to
    [failures]: fixes and writes were appended, no file went away, and no
    file appeared but possibly the linted one. *)
Definition during (sourceFilePath : string) (st st' : State) : Prop :=
  failures st' = failures st /\
  fixes st `prefix_of` fixes st' /\
  writes st `prefix_of` writes st' /\
  dom (disk st) ⊆ dom (disk st') /\
  dom (disk st') ⊆ dom (disk st) ∪ {[path_resolve sourceFilePath]}.

(** A computation keeps a relation when the state it ends in, normally or
    not, is related to the state it started in. *)
Definition keeps {A} (R : State -> State -> Prop) (m : M A) : Prop :=
  forall st, R st (snd (m st)).

End MoreDerived.

(** ** A small concrete configuration

    Rules, a formatter registry and a replacement merger to run the linter
    on: the merger applies replacements from the highest start offset down,
    [path.resolve] is relative to the directory [/repo]. *)
Module Demo.

Definition resolve (p : string) : string :=
  if String.prefix "/" p then p
  else if String.prefix "./" p
       then "/repo/" +:+ String.substring 2 (String.length p - 2) p
       else "/repo/" +:+ p.

Definition applyReplacement (content : string) (r : Replacement.t) : string :=
  let start := Replacement.start r in
  let stop := start + Replacement.length r in
  String.substring 0 start content +:+ Replacement.text r +:+
  String.substring stop (String.length content - stop) content.

Fixpoint insertDescending (r : Replacement.t) (sorted : list Replacement.t)
    : list Replacement.t :=
  match sorted with
  | [] => [r]
  | r' :: rest =>
      if (Replacement.start r' <=? Replacement.start r)%nat
      then r :: r' :: rest
      else r' :: insertDescending r rest
  end.

Definition applyAll (content : string) (fixes : list (option Fix)) : string :=
  let replacements := flat_map (fun entry => default [] entry) fixes in
  foldl applyReplacement content (foldr insertDescending [] replacements).

Definition failureAt (name : string) (sourceFile : ts.SourceFile)
    (start stop : nat) (message : string) (repair : option Fix) : RuleFailure :=
  mkRuleFailure name (ts.fileName sourceFile) start stop message repair error.

(** Flags a leading [var] and replaces it with [const]. *)
Definition noVar (sourceFile : ts.SourceFile) : Thrown + list RuleFailure :=
  if String.prefix "var " (ts.text sourceFile)
  then inr [failureAt "no-var" sourceFile 0 3 "Forbidden 'var' keyword"
              (Some [Replacement.mk 0 3 "const"])]
  else inr [].

(** Flags a text that does not end in a semicolon and appends one. *)
Definition semicolon (sourceFile : ts.SourceFile) : Thrown + list RuleFailure :=
  let text := ts.text sourceFile in
  if endsWith ";" text then inr []
  else inr [failureAt "semicolon" sourceFile (String.length text) (String.length text)
              "Missing semicolon" (Some [Replacement.mk (String.length text) 0 ";"])].

(** Flags a text longer than ten characters; no fix. *)
Definition maxLength (sourceFile : ts.SourceFile) : Thrown + list RuleFailure :=
  if (10 <? String.length (ts.text sourceFile))%nat
  then inr [failureAt "max-length" sourceFile 0 (String.length (ts.text sourceFile))
              "Text too long" None]
  else inr [].

(** Always throws. *)
Definition crash (sourceFile : ts.SourceFile) : Thrown + list RuleFailure :=
  inl (Error "boom").

(** Reports a failure in another file, [other.ts], with a fix there. *)
Definition headerSync (sourceFile : ts.SourceFile) : Thrown + list RuleFailure :=
  inr [mkRuleFailure "header-sync" "other.ts" 0 0 "Missing header"
         (Some [Replacement.mk 0 0 "// header "]) error].

(** Reports a failure under a rule name that is not its own. *)
Definition liar (sourceFile : ts.SourceFile) : Thrown + list RuleFailure :=
  inr [failureAt "ghost" sourceFile 0 0 "Nobody enabled me" None].

Definition registry (name : string) : option (ts.SourceFile -> Thrown + list RuleFailure) :=
  if String.eqb name "no-var" then Some noVar
  else if String.eqb name "semicolon" then Some semicolon
  else if String.eqb name "max-length" then Some maxLength
  else if String.eqb name "crash" then Some crash
  else if String.eqb name "header-sync" then Some headerSync
  else if String.eqb name "liar" then Some liar
  else None.

Definition load (ruleOptionsList : list IOptions) (directories : list string)
    (isJs : bool) : list IRule :=
  omap (fun ruleOptions =>
          match registry (ruleName ruleOptions) with
          | Some run => Some (mkRule ruleOptions run None)
          | None => None
          end) ruleOptionsList.

Definition prose : IFormatter :=
  mkFormatter (fun failures fixes =>
    foldr (fun f out => getFailure f +:+ ";" +:+ out) "" failures).

(** [dedent] of [utils.ts], for texts whose lines end in the line break
    alone: the parts and values are joined, and the smallest indent among the
    lines that have ink is taken off every line indented at least that
    much. *)
Fixpoint joinTemplate (strings values : list string) : string :=
  match strings with
  | [] => EmptyString
  | [last] => last
  | part :: rest =>
      match values with
      | [] => part +:+ "undefined" +:+ joinTemplate rest []
      | value :: others => part +:+ value +:+ joinTemplate rest others
      end
  end.

Fixpoint splitLines (s : string) : list string :=
  match s with
  | EmptyString => [EmptyString]
  | String c rest =>
      if Ascii.eqb c (ascii_of_nat 10) then EmptyString :: splitLines rest
      else match splitLines rest with
           | [] => [String c EmptyString]
           | line :: lines => String c line :: lines
           end
  end.

Definition isBlank (c : ascii) : bool :=
  Ascii.eqb c " " || Ascii.eqb c (ascii_of_nat 9).

Definition isWhiteSpace (c : ascii) : bool :=
  let n := nat_of_ascii c in ((9 <=? n)%nat && (n <=? 13)%nat) || (n =? 32)%nat.

Fixpoint leadingBlanks (line : string) : nat :=
  match line with
  | String c rest => if isBlank c then S (leadingBlanks rest) else 0
  | EmptyString => 0
  end.

Definition hasInk (line : string) : bool :=
  match String.substring (leadingBlanks line) 1 line with
  | String c _ => negb (isWhiteSpace c)
  | EmptyString => false
  end.

Definition dedentText (strings values : list string) : string :=
  let fullString := joinTemplate strings values in
  let lines := splitLines fullString in
  match leadingBlanks <$> List.filter hasInk lines with
  | [] => fullString
  | first :: others =>
      let indent := foldr Nat.min first others in
      String.concat newline
        ((fun line =>
            if (indent <=? leadingBlanks line)%nat
            then String.substring indent (String.length line - indent) line
            else line) <$> lines)
  end.

(** Reports two failures for the linted file [a.ts], the second under
    another spelling of its name. *)
Definition twoSpellings (sourceFile : ts.SourceFile) : Thrown + list RuleFailure :=
  inr [mkRuleFailure "two-spellings" "a.ts" 0 0 "First"
         (Some [Replacement.mk 0 0 "1"]) error;
       mkRuleFailure "two-spellings" "./a.ts" 0 0 "Second"
         (Some [Replacement.mk 0 0 "2"]) error].

#[global] Instance collaborators : Collaborators := {|
  normalizedName := fun name => name;
  path_resolve := resolve;
  dedent := dedentText;
  isDisabled := fun sourceFile _ => String.prefix "// tslint:disable" (ts.text sourceFile);
  Replacement_applyFixes := applyAll;
  findFormatter := fun name _ => if String.eqb name "prose" then Some prose else None;
  getRelativePath := fun directory => directory;
  RawRules := list IOptions;
  convertRuleOptions := fun raw => raw;
  loadRules := load;
|}.

Definition config (ruleOptionsList : list IOptions) : IConfigurationFile :=
  mkConfiguration _ ruleOptionsList ruleOptionsList [].

Definition fixing : ILinterOptions := mkLinterOptions true None None [].
Definition reporting : ILinterOptions := mkLinterOptions false None None [].

Definition emptyState : State := mkState [] [] ∅ [] ∅ ∅ ∅ [].

Definition onDisk (files : list (string * string)) : State :=
  mkState [] [] (list_to_map files) [] ∅ ∅ ∅ [].

(** A state in which [writeFileSync] throws for the given resolved paths. *)
Definition unwritable (errors : list (string * Thrown)) (st : State) : State :=
  mkState (failures st) (fixes st) (disk st) (writes st) (readErrors st)
          (list_to_map errors) (shownWarnings st) (console st).

(** A state in which [readFileSync] throws for the given resolved paths. *)
Definition unreadable (errors : list (string * Thrown)) (st : State) : State :=
  mkState (failures st) (fixes st) (disk st) (writes st) (list_to_map errors)
          (writeErrors st) (shownWarnings st) (console st).

(** A program created while [a.ts] still read [var x]. *)
Definition staleProgram : ts.Program :=
  ts.mkProgram (fun name =>
    if String.eqb name "a.ts" then Some (ts.mkSourceFile "a.ts" "var x") else None).

End Demo.

(** ** The definitions on small inputs *)

Example isJsFileName_upper : isJsFileName "lib/Widget.JSX" = true.
Proof. reflexivity. Qed.

Example isJsFileName_ts : isJsFileName "lib/widget.js.ts" = false.
Proof. reflexivity. Qed.

(** Keys stay in the order of their first insertion, values in the order of
    insertion. *)
Example createMultiMap_order :
  createMultiMap [("b", 1); ("a", 2); ("b", 3)] (fun pair => Some pair)
  = [("b", [1; 3]); ("a", [2])].
Proof. reflexivity. Qed.

(** The later of two rules with one name decides the severity. *)
Example ruleSeverityMap_last_wins :
  ruleSeverityMap [mkRule (mkOptions "no-var" error) Demo.noVar None;
                   mkRule (mkOptions "no-var" warning) Demo.noVar None] !! "no-var"
  = Some warning.
Proof. reflexivity. Qed.

(** A crashing rule prints its warning once over two files. *)
Example crash_warns_once :
  let crashing := mkRule (mkOptions "crash" error) Demo.crash None in
  let st1 := snd (applyRule None crashing (ts.mkSourceFile "a.ts" "var x") Demo.emptyState) in
  let st2 := snd (applyRule None crashing (ts.mkSourceFile "b.ts" "var y") st1) in
  console st2 = ["Warning: boom"].
Proof. reflexivity. Qed.

(** Two fixing rules on one file, without a program: both fixes land, and
    no failure is left to report. *)
Example lint_fixes_in_rule_order :
  let run := lint Demo.fixing None "a.ts" "var x"
               (Demo.config [mkOptions "no-var" error; mkOptions "semicolon" warning])
               (Demo.onDisk [("/repo/a.ts", "var x")]) in
  fst run = inr tt /\ failures (snd run) = [] /\
  disk (snd run) !! "/repo/a.ts" = Some "const x;" /\
  length (fixes (snd run)) = 2.
Proof. vm_compute. by repeat split. Qed.

(** ** What a run leaves alone *)

Section Frames.
Context `{Collaborators}.
Variable options : ILinterOptions.
Variable program : option ts.Program.

Lemma quiet_refl st : quiet st st.
Proof. by repeat split. Qed.

Lemma quiet_trans st1 st2 st3 : quiet st1 st2 -> quiet st2 st3 -> quiet st1 st3.
Proof.
  intros (?&?&?&?) (?&?&?&?). repeat split; congruence.
Qed.

Lemma applyRule_returns rule sourceFile st :
  exists st', applyRule program rule sourceFile st
              = (inr (ruleFailures program rule sourceFile), st') /\ quiet st st'.
Proof.
  unfold applyRule, ruleFailures, ruleOutcome.
  destruct (match program with
            | Some p => match applyWithProgram rule with
                        | Some typedApply => typedApply sourceFile p
                        | None => apply rule sourceFile
                        end
            | None => apply rule sourceFile
            end) as [thrown|found].
  - unfold bind. destruct (isError thrown).
    + unfold showWarningOnce. case_decide; eexists; split; try reflexivity;
        by repeat split.
    + unfold console_warn, modify. eexists; split; [reflexivity|by repeat split].
  - eexists; split; [reflexivity|apply quiet_refl].
Qed.

Lemma flatMap_applyRule enabledRules sourceFile st :
  exists st',
    flatMap enabledRules (fun rule => applyRule program rule sourceFile) st
    = (inr (flat_map (fun rule => ruleFailures program rule sourceFile) enabledRules), st')
    /\ quiet st st'.
Proof.
  revert st. induction enabledRules as [|rule rest IH]; intros st; simpl.
  - eexists; split; [reflexivity|apply quiet_refl].
  - destruct (applyRule_returns rule sourceFile st) as (st1 & E1 & Q1).
    destruct (IH st1) as (st2 & E2 & Q2).
    exists st2. split; [|by eapply quiet_trans].
    unfold bind at 1. rewrite E1. unfold bind at 1. by rewrite E2.
Qed.

Lemma getAllFailures_returns sourceFile enabledRules st :
  exists st', getAllFailures program sourceFile enabledRules st
              = (inr (allFailures program sourceFile enabledRules), st') /\ quiet st st'.
Proof.
  destruct (flatMap_applyRule enabledRules sourceFile st) as (st' & E & Q).
  exists st'. split; [|done].
  unfold getAllFailures, bind. by rewrite E.
Qed.

(** [getSourceFile] reads nothing but the program and changes nothing. *)
Lemma getSourceFile_state fileName source st :
  snd (getSourceFile program fileName source st) = st.
Proof.
  unfold getSourceFile. destruct program as [p|]; [|done].
  by destruct (ts.getSourceFile p fileName).
Qed.

Lemma getSourceFile_without_program fileName source st :
  program = None ->
  getSourceFile program fileName source st
  = (inr (utils_getSourceFile fileName source), st).
Proof. intros ->. done. Qed.

(** With a program the text handed to [getSourceFile] plays no part. *)
Lemma getSourceFile_with_program p fileName source source' st :
  program = Some p ->
  getSourceFile program fileName source st = getSourceFile program fileName source' st.
Proof. intros ->. done. Qed.

End Frames.

(** ** Running a computation step by step *)

Lemma bind_inr {A B} (m : M A) (k : A -> M B) st a st' :
  m st = (inr a, st') -> bind m k st = k a st'.
Proof. intros E. unfold bind. by rewrite E. Qed.

Lemma bind_inl {A B} (m : M A) (k : A -> M B) st e st' :
  m st = (inl e, st') -> bind m k st = (inl e, st').
Proof. intros E. unfold bind. by rewrite E. Qed.

Lemma bind_ret {A B} (a : A) (k : A -> M B) st : bind (ret a) k st = k a st.
Proof. done. Qed.

(** A computation that ended normally under [bind] went through both of its
    parts. *)
Lemma bind_inr_inv {A B} (m : M A) (k : A -> M B) st b st' :
  bind m k st = (inr b, st') ->
  exists a st1, m st = (inr a, st1) /\ k a st1 = (inr b, st').
Proof.
  unfold bind. destruct (m st) as [[e|a] st1]; [done|]. eauto.
Qed.

Section Severity.
Context `{Collaborators}.

Lemma addRuleSeverity_state map fileFailures st :
  snd (addRuleSeverity map fileFailures st) = st.
Proof.
  induction fileFailures as [|failure rest IH]; simpl; [done|].
  destruct (map !! getRuleName failure); [|done].
  unfold bind. destruct (addRuleSeverity map rest st) as [[e|stamped] st'] eqn:E;
    simpl in *; by subst.
Qed.

(** The loop throws at the first failure the map has no entry for. *)
Lemma addRuleSeverity_missing map fileFailures st :
  (exists failure, failure ∈ fileFailures /\ map !! getRuleName failure = None) ->
  exists failure,
    failure ∈ fileFailures /\ map !! getRuleName failure = None /\
    addRuleSeverity map fileFailures st
    = (inl (Error ("Severity for rule '" +:+ getRuleName failure +:+ "' not found")), st).
Proof.
  induction fileFailures as [|first rest IH]; intros (failure & Hin & Hnone).
  - by apply elem_of_nil in Hin.
  - simpl. destruct (map !! getRuleName first) as [severity|] eqn:Hfirst.
    + apply elem_of_cons in Hin as [->|Hin]; [congruence|].
      destruct IH as (culprit & ? & ? & E); [by eauto|].
      exists culprit. split_and!; [by apply elem_of_cons; right|done|].
      by rewrite (bind_inl _ _ _ _ _ E).
    + exists first. split_and!; [by apply elem_of_cons; left|done|done].
Qed.

(** With an entry for every failure the loop stamps each of them. *)
Lemma addRuleSeverity_complete map fileFailures st :
  (forall failure, failure ∈ fileFailures -> is_Some (map !! getRuleName failure)) ->
  exists stamped,
    addRuleSeverity map fileFailures st = (inr stamped, st) /\
    Forall2 (fun failure result =>
               exists severity, map !! getRuleName failure = Some severity /\
                                result = setRuleSeverity severity failure)
            fileFailures stamped.
Proof.
  induction fileFailures as [|first rest IH]; intros Hall; simpl.
  - exists []. by split.
  - destruct (Hall first) as [severity Hs]; [by apply elem_of_cons; left|].
    rewrite Hs.
    destruct IH as (stamped & E & Hstamped).
    { intros failure Hin. apply Hall. by apply elem_of_cons; right. }
    exists (setRuleSeverity severity first :: stamped). split.
    + by rewrite (bind_inr _ _ _ _ _ E).
    + constructor; [by eauto|done].
Qed.

End Severity.

(** ** The multimap of fixes by file *)

Section MultiMap.
Context {K V : Type} `{EqDecision K}.

Lemma multiMapAdd_keys (k : K) (v : V) map :
  (map.*1 ++ [k] = (multiMapAdd k v map).*1 /\ k ∉ map.*1) \/
  (map.*1 = (multiMapAdd k v map).*1 /\ k ∈ map.*1).
Proof.
  induction map as [|[k' vs] rest IH]; simpl.
  - left. split; [done|]. apply not_elem_of_nil.
  - case_decide as Hk; simpl.
    + subst. right. split; [done|]. by apply elem_of_cons; left.
    + destruct IH as [[E Hnot]|[E Hin]].
      * left. split; [by f_equal|]. rewrite elem_of_cons. tauto.
      * right. split; [by f_equal|]. by apply elem_of_cons; right.
Qed.

Lemma multiMapAdd_NoDup (k : K) (v : V) map :
  NoDup map.*1 -> NoDup (multiMapAdd k v map).*1.
Proof.
  intros Hnd. destruct (multiMapAdd_keys k v map) as [[E Hnot]|[E _]]; rewrite <- E.
  - apply NoDup_app. split_and!; [done| |apply NoDup_singleton].
    intros x Hx Hx'. apply list_elem_of_singleton in Hx'. by subst.
  - done.
Qed.

Lemma multiMapAdd_elem_of_keys (k k0 : K) (v : V) map :
  k0 ∈ (multiMapAdd k v map).*1 <-> k0 = k \/ k0 ∈ map.*1.
Proof.
  destruct (multiMapAdd_keys k v map) as [[E Hnot]|[E Hin]]; rewrite <- E.
  - rewrite elem_of_app, list_elem_of_singleton. tauto.
  - split; [tauto|]. intros [->|?]; done.
Qed.

(** Keeping the keys that satisfy [keep] commutes with adding a pair. *)
Lemma multiMapAdd_filter (keep : K -> bool) (k : K) (v : V) map :
  List.filter (fun entry => keep (fst entry)) (multiMapAdd k v map)
  = if keep k
    then multiMapAdd k v (List.filter (fun entry => keep (fst entry)) map)
    else List.filter (fun entry => keep (fst entry)) map.
Proof.
  induction map as [|[k' vs] rest IH]; simpl.
  - by destruct (keep k).
  - case_decide as Hk; simpl.
    + subst k'. destruct (keep k); simpl; [|done]. by rewrite decide_True.
    + rewrite IH. destruct (keep k') eqn:Hk', (keep k) eqn:Hkeep; simpl; try done.
      by rewrite decide_False.
Qed.

Context {T : Type} (getPair : T -> option (K * V)).

Lemma createMultiMap_fold inputs :
  createMultiMap inputs getPair = foldl (addPair getPair) [] inputs.
Proof. done. Qed.

Lemma foldl_addPair_NoDup inputs map :
  NoDup map.*1 -> NoDup (foldl (addPair getPair) map inputs).*1.
Proof.
  revert map. induction inputs as [|input rest IH]; intros map Hnd; simpl; [done|].
  apply IH. unfold addPair. destruct (getPair input) as [[k v]|]; [|done].
  by apply multiMapAdd_NoDup.
Qed.

Lemma foldl_addPair_keys inputs map k :
  k ∈ (foldl (addPair getPair) map inputs).*1 <->
  k ∈ map.*1 \/ exists input v, input ∈ inputs /\ getPair input = Some (k, v).
Proof.
  revert map. induction inputs as [|input rest IH]; intros map; simpl.
  - split; [tauto|]. intros [?|(?&?&Hin&_)]; [done|]. by apply elem_of_nil in Hin.
  - rewrite IH. unfold addPair at 1. split.
    + intros [Hk|(x & v & Hin & Hx)].
      * destruct (getPair input) as [[k' v']|] eqn:Hp; [|by left].
        apply multiMapAdd_elem_of_keys in Hk as [->|Hk]; [|by left].
        right. exists input, v'. split; [by apply elem_of_cons; left|done].
      * right. exists x, v. split; [by apply elem_of_cons; right|done].
    + intros [Hk|(x & v & Hin & Hx)].
      * left. destruct (getPair input) as [[k' v']|]; [|done].
        apply multiMapAdd_elem_of_keys. by right.
      * apply elem_of_cons in Hin as [->|Hin].
        -- left. rewrite Hx. apply multiMapAdd_elem_of_keys. by left.
        -- right. by exists x, v.
Qed.

Lemma createMultiMap_NoDup inputs : NoDup (createMultiMap inputs getPair).*1.
Proof. apply foldl_addPair_NoDup. constructor. Qed.

Lemma createMultiMap_keys inputs k :
  k ∈ (createMultiMap inputs getPair).*1 <->
  exists input v, input ∈ inputs /\ getPair input = Some (k, v).
Proof.
  rewrite createMultiMap_fold, foldl_addPair_keys. split; [|by right].
  intros [Hk|?]; [|done]. by apply elem_of_nil in Hk.
Qed.

End MultiMap.

Section MultiMapFilter.
Context {K V T : Type} `{EqDecision K}.
Variable getPair : T -> option (K * V).
Variable keep : K -> bool.
Variable keepInput : T -> bool.
Hypothesis keep_agrees :
  forall input k v, getPair input = Some (k, v) -> keepInput input = keep k.

Lemma foldl_addPair_filter inputs map :
  List.filter (fun entry => keep (fst entry)) (foldl (addPair getPair) map inputs)
  = foldl (addPair getPair) (List.filter (fun entry => keep (fst entry)) map)
          (List.filter keepInput inputs).
Proof.
  revert map. induction inputs as [|input rest IH]; intros map; simpl; [done|].
  rewrite IH. unfold addPair at 2.
  destruct (getPair input) as [[k v]|] eqn:Hp.
  - rewrite multiMapAdd_filter, (keep_agrees _ _ _ Hp).
    destruct (keep k); simpl; [|done]. unfold addPair at 3. by rewrite Hp.
  - destruct (keepInput input); simpl; [|done]. unfold addPair at 3. by rewrite Hp.
Qed.

(** The groups of the kept keys are the multimap of the kept inputs. *)
Lemma createMultiMap_filter inputs :
  List.filter (fun entry => keep (fst entry)) (createMultiMap inputs getPair)
  = createMultiMap (List.filter keepInput inputs) getPair.
Proof. rewrite !createMultiMap_fold. apply foldl_addPair_filter. Qed.

End MultiMapFilter.

(** ** Applying the fixes of one rule *)

Section ApplyFixes.
Context `{Collaborators}.
Variable sourceFilePath : string.

Local Abbreviation here := (path_resolve sourceFilePath).
Local Abbreviation atPath r := (fun group : string * list (option Fix) =>
                        bool_decide (path_resolve (fst group) = r)).

(** The two ways the callback of [forEach] ends normally. *)
Lemma applyFileFixes_inr source filePath fileFixes st source1 st1 :
  applyFileFixes sourceFilePath source (filePath, fileFixes) st = (inr source1, st1) ->
  (path_resolve filePath = here /\
   source1 = Replacement_applyFixes source fileFixes /\
   st1 = set_disk (<[path_resolve filePath := source1]> (disk st))
                  (writes st ++ [(filePath, source1)]) st)
  \/
  (path_resolve filePath ≠ here /\ source1 = source /\
   exists oldSource,
     disk st !! path_resolve filePath = Some oldSource /\
     st1 = set_disk (<[path_resolve filePath :=
                         Replacement_applyFixes oldSource fileFixes]> (disk st))
                    (writes st ++ [(filePath, Replacement_applyFixes oldSource fileFixes)])
                    st).
Proof.
  unfold applyFileFixes. case_decide as Hp.
  - unfold bind, writeFileSync.
    destruct (writeErrors st !! path_resolve filePath); [done|].
    intros [= <- <-]. by left.
  - unfold bind, readFileSync, writeFileSync.
    destruct (readErrors st !! path_resolve filePath); [done|].
    destruct (disk st !! path_resolve filePath) as [oldSource|] eqn:Hold; [|done].
    destruct (writeErrors st !! path_resolve filePath); [done|].
    intros [= <- <-]. right. split_and!; [done..|]. by exists oldSource.
Qed.

(** It ends normally only when the read, if there was one, and the write
    went through. *)
Lemma applyFileFixes_inr_writable source filePath fileFixes st source1 st1 :
  applyFileFixes sourceFilePath source (filePath, fileFixes) st = (inr source1, st1) ->
  writeErrors st !! path_resolve filePath = None /\
  (path_resolve filePath ≠ here -> readErrors st !! path_resolve filePath = None) /\
  writeErrors st1 = writeErrors st /\ readErrors st1 = readErrors st.
Proof.
  unfold applyFileFixes. case_decide as Hp.
  - unfold bind, writeFileSync.
    destruct (writeErrors st !! path_resolve filePath); [done|].
    by intros [= <- <-].
  - unfold bind, readFileSync, writeFileSync.
    destruct (readErrors st !! path_resolve filePath); [done|].
    destruct (disk st !! path_resolve filePath) as [oldSource|] eqn:Hold; [|done].
    destruct (writeErrors st !! path_resolve filePath); [done|].
    by intros [= <- <-].
Qed.

(** It throws when another file cannot be read or when the write fails, and
    then it has changed nothing. *)
Lemma applyFileFixes_inl source filePath fileFixes st e st1 :
  applyFileFixes sourceFilePath source (filePath, fileFixes) st = (inl e, st1) ->
  st1 = st /\
  ((path_resolve filePath ≠ here /\
    (disk st !! path_resolve filePath = None \/
     readErrors st !! path_resolve filePath = Some e)) \/
   writeErrors st !! path_resolve filePath = Some e).
Proof.
  unfold applyFileFixes. case_decide as Hp.
  - unfold bind, writeFileSync.
    destruct (writeErrors st !! path_resolve filePath); [|done].
    intros [= <- <-]. split; [done|by right].
  - unfold bind, readFileSync, writeFileSync.
    destruct (readErrors st !! path_resolve filePath) eqn:Hcannot.
    { intros [= <- <-]. split; [done|]. left. split; [done|by right]. }
    destruct (disk st !! path_resolve filePath) as [oldSource|] eqn:Hold.
    + destruct (writeErrors st !! path_resolve filePath); [|done].
      intros [= <- <-]. split; [done|by right].
    + intros [= <- <-]. split; [done|]. left. split; [done|by left].
Qed.

Ltac step_forEach Hrun IH :=
  let source1 := fresh "source1" in
  let st1 := fresh "st1" in
  let Hstep := fresh "Hstep" in
  let Hrest := fresh "Hrest" in
  simpl in Hrun;
  apply bind_inr_inv in Hrun as (source1 & st1 & Hstep & Hrest);
  apply applyFileFixes_inr in Hstep
    as [(Hp & -> & ->)|(Hp & -> & oldSource & Hold & ->)];
  apply IH in Hrest.

(** The text in memory takes the groups of the linted file and no other. *)
Lemma forEach_source groups source st source' st' :
  forEach groups (applyFileFixes sourceFilePath) source st = (inr source', st') ->
  source' = mergeGroups source (List.filter (atPath here) groups).
Proof.
  revert source st. induction groups as [|[filePath fileFixes] rest IH];
    intros source st Hrun.
  - by injection Hrun as <- <-.
  - step_forEach Hrun IH; simpl.
    + by rewrite bool_decide_eq_true_2.
    + by rewrite bool_decide_eq_false_2.
Qed.

Lemma forEach_session groups source st source' st' :
  forEach groups (applyFileFixes sourceFilePath) source st = (inr source', st') ->
  failures st' = failures st /\ fixes st' = fixes st.
Proof.
  revert source st. induction groups as [|[filePath fileFixes] rest IH];
    intros source st Hrun.
  - by injection Hrun as <- <-.
  - step_forEach Hrun IH; done.
Qed.

(** Every other file holds its old text with its own groups merged in, and
    a file that has a group was there to be read. *)
Lemma forEach_disk_other groups source st source' st' r :
  forEach groups (applyFileFixes sourceFilePath) source st = (inr source', st') ->
  r ≠ here ->
  disk st' !! r
  = (fun oldSource => mergeGroups oldSource (List.filter (atPath r) groups))
      <$> disk st !! r
  /\ (List.filter (atPath r) groups ≠ [] -> is_Some (disk st !! r)).
Proof.
  intros Hrun Hr. revert source st Hrun.
  induction groups as [|[filePath fileFixes] rest IH]; intros source st Hrun.
  - injection Hrun as <- <-. simpl. split; [|done]. by destruct (disk st !! r).
  - step_forEach Hrun IH; simpl in *.
    + rewrite bool_decide_eq_false_2 by congruence.
      by rewrite lookup_insert_ne in Hrest by congruence.
    + destruct (decide (path_resolve filePath = r)) as [<-|Hne].
      * rewrite bool_decide_eq_true_2 by done.
        rewrite lookup_insert_eq in Hrest. rewrite Hold. simpl in *.
        split; [by apply Hrest|by eauto].
      * rewrite bool_decide_eq_false_2 by done.
        by rewrite lookup_insert_ne in Hrest by done.
Qed.

(** The linted file holds the text in memory as soon as one group was for
    it. *)
Lemma forEach_disk_here groups source st source' st' :
  forEach groups (applyFileFixes sourceFilePath) source st = (inr source', st') ->
  List.filter (atPath here) groups ≠ [] ->
  disk st' !! here = Some source'.
Proof.
  revert source st. induction groups as [|[filePath fileFixes] rest IH];
    intros source st Hrun Hsome.
  - done.
  - simpl in Hrun.
    apply bind_inr_inv in Hrun as (source1 & st1 & Hstep & Hrest).
    destruct (decide (List.filter (atPath here) rest = [])) as [Hnone|Hmore].
    + pose proof (forEach_source _ _ _ _ _ Hrest) as Hsrc.
      rewrite Hnone in Hsrc. simpl in Hsrc. subst source'.
      assert (disk st' !! here = disk st1 !! here) as ->.
      { clear -Hrest Hnone. revert source1 st1 Hrest.
        induction rest as [|[p fx] rest IH]; intros source1 st1 Hrest.
        - by injection Hrest as <-.
        - simpl in Hnone.
          destruct (bool_decide (path_resolve p = here)) eqn:Hp; [done|].
          apply bool_decide_eq_false_1 in Hp.
          simpl in Hrest.
          apply bind_inr_inv in Hrest as (s2 & st2 & Hstep & Hrest).
          apply applyFileFixes_inr in Hstep
            as [(Hp' & _)|(_ & -> & oldSource & Hold & ->)]; [done|].
          rewrite (IH Hnone _ _ Hrest). simpl.
          by rewrite lookup_insert_ne. }
      apply applyFileFixes_inr in Hstep
        as [(Hp & -> & ->)|(Hp & -> & oldSource & Hold & ->)]; simpl.
      * rewrite <- Hp. apply lookup_insert_eq.
      * simpl in Hsome. by rewrite bool_decide_eq_false_2, Hnone in Hsome.
    + by eapply IH.
Qed.

(** One [writeFileSync] per group, in the order of the groups, each to the
    key of its group; the last one to the linted file wrote the text in
    memory. *)
Lemma forEach_writes groups source st source' st' :
  forEach groups (applyFileFixes sourceFilePath) source st = (inr source', st') ->
  exists log,
    writes st' = writes st ++ log /\ log.*1 = groups.*1 /\
    (List.filter (atPath here) groups ≠ [] ->
     exists filePath, path_resolve filePath = here /\ (filePath, source') ∈ log).
Proof.
  revert source st. induction groups as [|[filePath fileFixes] rest IH];
    intros source st Hrun.
  - injection Hrun as <- <-. exists []. by rewrite app_nil_r.
  - simpl in Hrun.
    apply bind_inr_inv in Hrun as (source1 & st1 & Hstep & Hrest).
    pose proof (forEach_source _ _ _ _ _ Hrest) as Hsrc.
    destruct (IH _ _ Hrest) as (log & Hlog & Hkeys & Hlast).
    apply applyFileFixes_inr in Hstep
      as [(Hp & -> & ->)|(Hp & -> & oldSource & Hold & ->)]; simpl in Hlog.
    + eexists (_ :: log). split_and!.
      * rewrite Hlog, <- app_assoc. reflexivity.
      * simpl. by f_equal.
      * intros _.
        destruct (decide (List.filter (atPath here) rest = [])) as [Hnone|Hmore].
        -- rewrite Hnone in Hsrc. simpl in Hsrc. subst source'.
           exists filePath. split; [done|]. by apply elem_of_cons; left.
        -- destruct (Hlast Hmore) as (p & ? & ?).
           exists p. split; [done|]. by apply elem_of_cons; right.
    + eexists (_ :: log). split_and!.
      * rewrite Hlog, <- app_assoc. reflexivity.
      * simpl. by f_equal.
      * simpl. rewrite bool_decide_eq_false_2 by done. intros Hmore.
        destruct (Hlast Hmore) as (p & ? & ?).
        exists p. split; [done|]. by apply elem_of_cons; right.
Qed.

(** [applyFixes] ends normally when every other file it has a group for is
    there and can be read, and every file it has a group for can be
    written. *)
Lemma forEach_returns groups source st :
  (forall filePath, filePath ∈ groups.*1 -> path_resolve filePath ≠ here ->
                    is_Some (disk st !! path_resolve filePath) /\
                    readErrors st !! path_resolve filePath = None) ->
  (forall filePath, filePath ∈ groups.*1 ->
                    writeErrors st !! path_resolve filePath = None) ->
  exists source' st',
    forEach groups (applyFileFixes sourceFilePath) source st = (inr source', st').
Proof.
  revert source st. induction groups as [|[filePath fileFixes] rest IH];
    intros source st Hread Hwrite.
  - by eexists _, _.
  - cbn [forEach].
    destruct (applyFileFixes sourceFilePath source (filePath, fileFixes) st)
      as [[e|source1] st1] eqn:Hstep.
    + apply applyFileFixes_inl in Hstep as (_ & [(Hp & Hcannot)|Herror]).
      * destruct (Hread filePath) as [[? Hsome] Hcan]; [by apply elem_of_cons; left|done|].
        destruct Hcannot; congruence.
      * rewrite (Hwrite filePath) in Herror; [done|by apply elem_of_cons; left].
    + rewrite (bind_inr _ _ _ _ _ Hstep).
      pose proof (applyFileFixes_inr_writable _ _ _ _ _ _ Hstep)
        as (_ & _ & Hkept & Hkept').
      apply IH.
      * intros p Hin Hp. rewrite Hkept'.
        destruct (Hread p) as [[old Hold] Hcan]; [by apply elem_of_cons; right|done|].
        split; [|done].
        apply applyFileFixes_inr in Hstep
          as [(Hq & -> & ->)|(Hq & -> & oldSource & Hold' & ->)]; simpl.
        -- rewrite lookup_insert_ne by congruence. by eauto.
        -- destruct (decide (path_resolve filePath = path_resolve p)) as [->|Hne].
           ++ rewrite lookup_insert_eq. by eauto.
           ++ rewrite lookup_insert_ne by done. by eauto.
      * intros p Hin. rewrite Hkept. apply Hwrite. by apply elem_of_cons; right.
Qed.

End ApplyFixes.

(** ** One iteration of the fix loop, and the loop *)

Section FixLoop.
Context `{Collaborators}.
Variable program : option ts.Program.
Variable sourceFileName : string.

Local Abbreviation here := (path_resolve sourceFileName).

Lemma fixesByFile_keys fixableFailures filePath :
  filePath ∈ (fixesByFile fixableFailures).*1 <->
  exists f, f ∈ fixableFailures /\ getFileName f = filePath.
Proof.
  unfold fixesByFile. rewrite createMultiMap_keys. split.
  - intros (f & v & Hin & [= <- _]). by exists f.
  - intros (f & Hin & <-). by exists f, (getFix f).
Qed.


Lemma groupsAt_nonempty resolved fixableFailures f :
  f ∈ fixableFailures -> path_resolve (getFileName f) = resolved ->
  groupsAt resolved fixableFailures ≠ [].
Proof.
  intros Hin Hf Hnil.
  assert (getFileName f ∈ (fixesByFile fixableFailures).*1) as Hkey.
  { apply fixesByFile_keys. by exists f. }
  apply list_elem_of_fmap in Hkey as ([k vs] & Hk & Hgroup). simpl in Hk.
  assert ((k, vs) ∈ groupsAt resolved fixableFailures) as Hmem.
  { apply list_elem_of_In, filter_In. split; [by apply list_elem_of_In|].
    simpl. apply bool_decide_eq_true_2. congruence. }
  rewrite Hnil in Hmem. by apply elem_of_nil in Hmem.
Qed.

Lemma readable_spec st fixableFailures :
  readable sourceFileName st fixableFailures = true ->
  forall filePath, filePath ∈ (fixesByFile fixableFailures).*1 ->
                   path_resolve filePath ≠ here ->
                   is_Some (disk st !! path_resolve filePath) /\
                   readErrors st !! path_resolve filePath = None.
Proof.
  intros Hread filePath Hkey Hp.
  apply fixesByFile_keys in Hkey as (f & Hin & <-).
  unfold readable in Hread. rewrite forallb_forall in Hread.
  specialize (Hread f (proj1 (list_elem_of_In _ _) Hin)).
  apply orb_true_iff in Hread as [Hhere|[Hsome Hcan]%andb_true_iff].
  - by apply bool_decide_eq_true_1 in Hhere.
  - split; by eapply bool_decide_eq_true_1.
Qed.

Lemma viewable_spec source st :
  viewable program sourceFileName = true ->
  exists sourceFile, getSourceFile program sourceFileName source st = (inr sourceFile, st).
Proof.
  unfold viewable, getSourceFile. destruct program as [p|]; [|by eauto].
  intros [sf Hsf]%bool_decide_eq_true_1. rewrite Hsf. by eauto.
Qed.

Lemma getSourceFile_inr fileName source st sourceFile st' :
  getSourceFile program fileName source st = (inr sourceFile, st') -> st' = st.
Proof.
  intros E. pose proof (getSourceFile_state program fileName source st) as Hst.
  by rewrite E in Hst.
Qed.

(** What an iteration that ended normally went through. *)
Lemma fixRule_inr rule sourceFile source st sourceFile' source' st' :
  fixRule program sourceFileName rule (sourceFile, source) st
  = (inr (sourceFile', source'), st') ->
  exists st0,
    quiet st st0 /\
    applyFixes sourceFileName source (freshFixableFailures program rule sourceFile)
      (set_fixes (fixes st0 ++ freshFixableFailures program rule sourceFile) st0)
    = (inr source', st') /\
    getSourceFile program sourceFileName source' st' = (inr sourceFile', st').
Proof.
  destruct (applyRule_returns program rule sourceFile st) as (st0 & Hrule & Hquiet).
  unfold fixRule. rewrite (bind_inr _ _ _ _ _ Hrule).
  intros Hrun. exists st0. split; [done|].
  apply bind_inr_inv in Hrun as ([] & stA & Hmod & Hrun).
  injection Hmod as <-.
  apply bind_inr_inv in Hrun as (source1 & stB & Hfix & Hrun).
  apply bind_inr_inv in Hrun as (sourceFile1 & stC & Hview & Hret).
  injection Hret as <- <- <-.
  pose proof (getSourceFile_inr _ _ _ _ _ Hview) as ->.
  by split.
Qed.

Lemma writable_spec st fixableFailures :
  writable st fixableFailures = true ->
  forall filePath, filePath ∈ (fixesByFile fixableFailures).*1 ->
                   writeErrors st !! path_resolve filePath = None.
Proof.
  intros Hwrite filePath Hkey.
  apply fixesByFile_keys in Hkey as (f & Hin & <-).
  unfold writable in Hwrite. rewrite forallb_forall in Hwrite.
  specialize (Hwrite f (proj1 (list_elem_of_In _ _) Hin)).
  by apply bool_decide_eq_true_1 in Hwrite.
Qed.

Lemma applyRule_writeErrors rule sourceFile st :
  writeErrors (snd (applyRule program rule sourceFile st)) = writeErrors st /\
  readErrors (snd (applyRule program rule sourceFile st)) = readErrors st.
Proof.
  unfold applyRule.
  destruct (match program with
            | Some p => match applyWithProgram rule with
                        | Some typedApply => typedApply sourceFile p
                        | None => apply rule sourceFile
                        end
            | None => apply rule sourceFile
            end) as [thrown|found]; [|done].
  unfold bind. destruct (isError thrown).
  - unfold showWarningOnce. by case_decide.
  - done.
Qed.

(** An iteration ends normally when the other files can be read, all files
    can be written and the linted one can be viewed. *)
Lemma fixRule_returns rule sourceFile source st :
  readable sourceFileName st (freshFixableFailures program rule sourceFile) = true ->
  writable st (freshFixableFailures program rule sourceFile) = true ->
  viewable program sourceFileName = true ->
  exists sourceFile' source' st',
    fixRule program sourceFileName rule (sourceFile, source) st
    = (inr (sourceFile', source'), st').
Proof.
  intros Hread Hwrite Hview.
  destruct (applyRule_returns program rule sourceFile st)
    as (st0 & Hrule & (_ & _ & Hdisk & _)).
  pose proof (applyRule_writeErrors rule sourceFile st) as [Herrors Herrors'].
  rewrite Hrule in Herrors, Herrors'. simpl in Herrors, Herrors'.
  set (fixable := freshFixableFailures program rule sourceFile) in *.
  destruct (forEach_returns sourceFileName (fixesByFile fixable) source
              (set_fixes (fixes st0 ++ fixable) st0)) as (source' & st' & Hfix).
  { simpl. rewrite Hdisk, Herrors'. by apply readable_spec. }
  { simpl. rewrite Herrors. by apply writable_spec. }
  destruct (viewable_spec source' st' Hview) as (sourceFile' & Hsf).
  exists sourceFile', source', st'.
  unfold fixRule. rewrite (bind_inr _ _ _ _ _ Hrule).
  fold fixable. unfold modify. rewrite bind_inr with (a := tt)
    (st' := set_fixes (fixes st0 ++ fixable) st0) by done.
  unfold applyFixes. rewrite (bind_inr _ _ _ _ _ Hfix).
  by rewrite (bind_inr _ _ _ _ _ Hsf).
Qed.

(** The loop skips the rules without a fixable failure in the batch it was
    given: it runs over the others, in their order. *)
Lemma fixRules_filter enabledRules fileFailures current st :
  fixRules program enabledRules fileFailures sourceFileName current st
  = fixRules program (List.filter (hasFixes fileFailures) enabledRules)
             fileFailures sourceFileName current st.
Proof.
  revert current st.
  induction enabledRules as [|rule rest IH]; intros current st; [done|].
  simpl. destruct (hasFixes fileFailures rule) eqn:Hfix; simpl.
  - rewrite Hfix. unfold bind.
    destruct (fixRule program sourceFileName rule current st) as [[e|current'] st'];
      by rewrite ?IH.
  - apply IH.
Qed.

Lemma fixRules_failures enabledRules fileFailures current st current' st' :
  fixRules program enabledRules fileFailures sourceFileName current st
  = (inr current', st') ->
  failures st' = failures st.
Proof.
  revert current st. induction enabledRules as [|rule rest IH]; intros current st; simpl.
  - by intros [= <- <-].
  - destruct (hasFixes fileFailures rule); [|by apply IH].
    intros Hrun.
    apply bind_inr_inv in Hrun as ([sourceFile1 source1] & st1 & Hstep & Hrest).
    apply IH in Hrest. rewrite Hrest. destruct current as [sourceFile source].
    apply fixRule_inr in Hstep as (st0 & (Hf & _) & Hfix & _).
    apply forEach_session in Hfix as [-> _]. done.
Qed.

(** Without a program the loop keeps the source file in step with the text:
    it is always the parse of the text in memory. *)
Lemma fixRules_without_program enabledRules fileFailures source st current' st' :
  program = None ->
  fixRules program enabledRules fileFailures sourceFileName
    (utils_getSourceFile sourceFileName source, source) st = (inr current', st') ->
  fst current' = utils_getSourceFile sourceFileName (snd current').
Proof.
  intros Hnone. revert source st.
  induction enabledRules as [|rule rest IH]; intros source st; simpl.
  - by intros [= <- <-].
  - destruct (hasFixes fileFailures rule); [|by apply IH].
    intros Hrun.
    apply bind_inr_inv in Hrun as ([sourceFile1 source1] & st1 & Hstep & Hrest).
    apply fixRule_inr in Hstep as (st0 & _ & _ & Hview).
    rewrite getSourceFile_without_program in Hview by done.
    injection Hview as <-. by eapply IH.
Qed.

(** With a program the loop never changes the source file. *)
Lemma fixRules_with_program p enabledRules fileFailures sourceFile source st current' st' :
  program = Some p ->
  ts.getSourceFile p sourceFileName = Some sourceFile ->
  fixRules program enabledRules fileFailures sourceFileName (sourceFile, source) st
  = (inr current', st') ->
  fst current' = sourceFile.
Proof.
  intros Hp Hsf. revert source st.
  induction enabledRules as [|rule rest IH]; intros source st; simpl.
  - by intros [= <- <-].
  - destruct (hasFixes fileFailures rule); [|by apply IH].
    intros Hrun.
    apply bind_inr_inv in Hrun as ([sourceFile1 source1] & st1 & Hstep & Hrest).
    apply fixRule_inr in Hstep as (st0 & _ & _ & Hview).
    unfold getSourceFile in Hview. rewrite Hp, Hsf in Hview.
    injection Hview as <-. by eapply IH.
Qed.

End FixLoop.

(** ** Properties of [lint] and [getResult] *)

Section LintProperties.
Context `{Collaborators}.
Variable options : ILinterOptions.
Variable program : option ts.Program.

(** C4.  When the failures of a file that are left after suppression are
    none, [lint] returns at once: nothing is written to the disk, and the
    failures and fixes of the session stay as they were, whatever the [fix]
    option says. *)
Theorem lint_clean_file_is_noop fileName source configuration st sourceFile :
  getSourceFile program fileName source st = (inr sourceFile, st) ->
  allFailures program sourceFile
    (getEnabledRules options configuration (isJsFileName fileName)) = [] ->
  exists st',
    lint options program fileName source configuration st = (inr tt, st') /\
    failures st' = failures st /\ fixes st' = fixes st /\
    disk st' = disk st /\ writes st' = writes st.
Proof.
  intros Hview Hclean.
  destruct (getAllFailures_returns program sourceFile
              (getEnabledRules options configuration (isJsFileName fileName)) st)
    as (st' & Hall & Hquiet).
  exists st'. split; [|exact Hquiet].
  unfold lint. rewrite (bind_inr _ _ _ _ _ Hview), (bind_inr _ _ _ _ _ Hall).
  by rewrite Hclean.
Qed.

(** C5.  With no rule enabled, [lint] of any file with any text finds no
    failure and writes nothing: whether it returns or throws for a file the
    program does not know, the session's failures and fixes and the disk
    are what they were, and the batch it computed is empty. *)
Theorem lint_without_rules fileName source configuration st :
  getEnabledRules options configuration (isJsFileName fileName) = [] ->
  exists outcome st',
    lint options program fileName source configuration st = (outcome, st') /\
    failures st' = failures st /\ fixes st' = fixes st /\
    disk st' = disk st /\ writes st' = writes st /\
    forall sourceFile st0,
      getAllFailures program sourceFile
        (getEnabledRules options configuration (isJsFileName fileName)) st0
      = (inr [], st0).
Proof.
  intros Hnone. rewrite Hnone.
  destruct (getSourceFile program fileName source st) as [[e|sourceFile] st1] eqn:Hview.
  - exists (inl e), st1.
    pose proof (getSourceFile_state program fileName source st) as Hst.
    rewrite Hview in Hst. simpl in Hst. subst st1.
    split_and!; try done.
    unfold lint. by rewrite (bind_inl _ _ _ _ _ Hview).
  - exists (inr tt), st1.
    pose proof (getSourceFile_state program fileName source st) as Hst.
    rewrite Hview in Hst. simpl in Hst. subst st1.
    split_and!; try done.
    unfold lint. rewrite (bind_inr _ _ _ _ _ Hview). by rewrite Hnone.
Qed.

(** C9.  When the formatter registry has no formatter under the requested
    name, [getResult] throws an error that names the formatter; no result,
    hence no output, is produced, and the session is as before. *)
Theorem getResult_unknown_formatter st :
  findFormatter (default "prose" (formatter options))
                (getRelativePath (formattersDirectory options)) = None ->
  getResult options st
  = (inl (Error ("formatter '" +:+ default "prose" (formatter options) +:+ "' not found")),
     st).
Proof. intros Hnone. unfold getResult. by rewrite Hnone. Qed.


End LintProperties.

Lemma lint_clean_file_is_noop_witness :
  exists st',
    lint Demo.fixing None "a.ts" "const x;"
         (Demo.config [mkOptions "no-var" error; mkOptions "semicolon" warning])
         (Demo.onDisk [("/repo/a.ts", "const x;")]) = (inr tt, st') /\
    failures st' = [] /\ fixes st' = [] /\
    disk st' = list_to_map [("/repo/a.ts", "const x;")] /\ writes st' = [].
Proof.
  apply (lint_clean_file_is_noop Demo.fixing None "a.ts" "const x;"
           (Demo.config [mkOptions "no-var" error; mkOptions "semicolon" warning])
           (Demo.onDisk [("/repo/a.ts", "const x;")])
           (ts.mkSourceFile "a.ts" "const x;")); reflexivity.
Defined.

Lemma lint_without_rules_witness :
  exists outcome st',
    lint Demo.fixing None "a.ts" "var x" (Demo.config [])
         (Demo.onDisk [("/repo/a.ts", "var x")]) = (outcome, st') /\
    failures st' = [] /\ writes st' = [].
Proof.
  destruct (lint_without_rules Demo.fixing None "a.ts" "var x" (Demo.config [])
              (Demo.onDisk [("/repo/a.ts", "var x")]))
    as (outcome & st' & E & Hf & _ & _ & Hw & _); [reflexivity|].
  by exists outcome, st'.
Defined.

Lemma getResult_unknown_formatter_witness :
  getResult (mkLinterOptions false (Some "fancy") None []) Demo.emptyState
  = (inl (Error "formatter 'fancy' not found"), Demo.emptyState).
Proof.
  apply (getResult_unknown_formatter (mkLinterOptions false (Some "fancy") None [])
           Demo.emptyState). reflexivity.
Defined.


Section SeverityProperties.
Context `{Collaborators}.
Variable options : ILinterOptions.
Variable program : option ts.Program.

Lemma finalBatch_failures enabledRules fileFailures sourceFile fileName st final st' :
  finalBatch program options enabledRules fileFailures sourceFile fileName st
  = (inr final, st') ->
  failures st' = failures st.
Proof.
  unfold finalBatch.
  destruct (fixOption options && existsb hasFix fileFailures); [|by intros [= <- <-]].
  unfold applyAllFixes. intros Hrun.
  apply bind_inr_inv in Hrun as (current & st1 & Hloop & Hall).
  apply fixRules_failures in Hloop.
  destruct (getAllFailures_returns program (fst current) enabledRules st1)
    as (st2 & E & (Hf & _)).
  rewrite E in Hall. injection Hall as <- <-. congruence.
Qed.

(** [lint] from the point where its first batch is known not to be empty. *)
Lemma lint_nonempty fileName source configuration st sourceFile batch st1 :
  getSourceFile program fileName source st = (inr sourceFile, st) ->
  getAllFailures program sourceFile
    (getEnabledRules options configuration (isJsFileName fileName)) st = (inr batch, st1) ->
  batch ≠ [] ->
  lint options program fileName source configuration st
  = bind (finalBatch program options
            (getEnabledRules options configuration (isJsFileName fileName))
            batch sourceFile fileName)
         (fun final =>
            bind (addRuleSeverity
                    (ruleSeverityMap
                       (getEnabledRules options configuration (isJsFileName fileName)))
                    final)
                 (fun stamped =>
                    modify (fun st => set_failures (failures st ++ stamped) st)))
         st1.
Proof.
  intros Hview Hall Hsome.
  unfold lint. rewrite (bind_inr _ _ _ _ _ Hview), (bind_inr _ _ _ _ _ Hall).
  by destruct batch.
Qed.

(** C6.  When the batch that reaches the severity loop holds a failure
    whose rule name has no entry in the severity map of the enabled rules,
    [lint] throws the error "Severity for rule '...' not found" for such a
    failure, and the failures of the session are what they were before the
    call: the batch is not appended. *)
Theorem lint_missing_severity_throws
    fileName source configuration st sourceFile batch st1 final st2 :
  let enabledRules := getEnabledRules options configuration (isJsFileName fileName) in
  getSourceFile program fileName source st = (inr sourceFile, st) ->
  getAllFailures program sourceFile enabledRules st = (inr batch, st1) ->
  batch ≠ [] ->
  finalBatch program options enabledRules batch sourceFile fileName st1
  = (inr final, st2) ->
  (exists failure,
      failure ∈ final /\ ruleSeverityMap enabledRules !! getRuleName failure = None) ->
  exists failure,
    failure ∈ final /\ ruleSeverityMap enabledRules !! getRuleName failure = None /\
    lint options program fileName source configuration st
    = (inl (Error ("Severity for rule '" +:+ getRuleName failure +:+ "' not found")), st2)
    /\ failures st2 = failures st.
Proof.
  intros enabledRules Hview Hall Hsome Hfinal Hmissing.
  destruct (addRuleSeverity_missing (ruleSeverityMap enabledRules) final st2 Hmissing)
    as (failure & Hin & Hnone & Hthrow).
  exists failure. split_and!; [done..| |].
  - rewrite (lint_nonempty _ _ _ _ _ _ _ Hview Hall Hsome).
    rewrite (bind_inr _ _ _ _ _ Hfinal). by rewrite (bind_inl _ _ _ _ _ Hthrow).
  - rewrite (finalBatch_failures _ _ _ _ _ _ _ Hfinal).
    destruct (getAllFailures_returns program sourceFile enabledRules st)
      as (st1' & E & (Hf & _)).
    rewrite E in Hall. by injection Hall as <- <-.
Qed.

Lemma error_and_other_counts (accumulated : list RuleFailure) :
  length accumulated - length (List.filter isErrorSeverity accumulated)
  = length (List.filter (fun failure => negb (isErrorSeverity failure)) accumulated).
Proof.
  pose proof (List.filter_length isErrorSeverity accumulated) as Hsplit. lia.
Qed.

(** C7.  In the result of [getResult], [errorCount] is the number of
    accumulated failures whose severity is [error] and [warningCount] the
    number of the others.  In particular, after [lint] on a fresh session
    whose batch is one failure of a rule configured as [error] and one of a
    rule configured as [warning], the result has [errorCount = 1] and
    [warningCount = 1]. *)
Theorem summary_counts_by_severity
    chosen fileName source configuration st sourceFile batch st1 fx fy st2 :
  let enabledRules := getEnabledRules options configuration (isJsFileName fileName) in
  findFormatter (default "prose" (formatter options))
                (getRelativePath (formattersDirectory options)) = Some chosen ->
  failures st = [] ->
  getSourceFile program fileName source st = (inr sourceFile, st) ->
  getAllFailures program sourceFile enabledRules st = (inr batch, st1) ->
  batch ≠ [] ->
  finalBatch program options enabledRules batch sourceFile fileName st1
  = (inr [fx; fy], st2) ->
  ruleSeverityMap enabledRules !! getRuleName fx = Some error ->
  ruleSeverityMap enabledRules !! getRuleName fy = Some warning ->
  (forall session,
      exists result,
        getResult options session = (inr result, session) /\
        errorCount result = length (List.filter isErrorSeverity (failures session)) /\
        warningCount result
        = length (List.filter (fun failure => negb (isErrorSeverity failure))
                              (failures session))) /\
  exists st3 result,
    lint options program fileName source configuration st = (inr tt, st3) /\
    getResult options st3 = (inr result, st3) /\
    errorCount result = 1 /\ warningCount result = 1.
Proof.
  intros enabledRules Hformatter Hfresh Hview Hall Hsome Hfinal Hx Hy.
  assert (forall session,
      exists result,
        getResult options session = (inr result, session) /\
        errorCount result = length (List.filter isErrorSeverity (failures session)) /\
        warningCount result
        = length (List.filter (fun failure => negb (isErrorSeverity failure))
                              (failures session))) as Hcounts.
  { intros session. unfold getResult. rewrite Hformatter.
    eexists. split; [reflexivity|]. simpl. split; [done|].
    apply error_and_other_counts. }
  split; [exact Hcounts|].
  set (st3 := set_failures
                (failures st2 ++ [setRuleSeverity error fx; setRuleSeverity warning fy])
                st2).
  destruct (Hcounts st3) as (result & Hresult & Herrors & Hwarnings).
  exists st3, result. split_and!; [|done| |].
  - rewrite (lint_nonempty _ _ _ _ _ _ _ Hview Hall Hsome).
    rewrite (bind_inr _ _ _ _ _ Hfinal). fold enabledRules.
    unfold bind. simpl. by rewrite Hx, Hy.
  - rewrite Herrors. subst st3. simpl.
    rewrite (finalBatch_failures _ _ _ _ _ _ _ Hfinal).
    destruct (getAllFailures_returns program sourceFile enabledRules st)
      as (st1' & E & (Hf & _)).
    rewrite E in Hall. injection Hall as <- <-. by rewrite Hf, Hfresh.
  - rewrite Hwarnings. subst st3. simpl.
    rewrite (finalBatch_failures _ _ _ _ _ _ _ Hfinal).
    destruct (getAllFailures_returns program sourceFile enabledRules st)
      as (st1' & E & (Hf & _)).
    rewrite E in Hall. injection Hall as <- <-. by rewrite Hf, Hfresh.
Qed.

End SeverityProperties.

Lemma lint_missing_severity_throws_witness :
  exists st2,
    lint Demo.reporting None "a.ts" "var x" (Demo.config [mkOptions "liar" error])
         Demo.emptyState
    = (inl (Error "Severity for rule 'ghost' not found"), st2) /\
    failures st2 = [].
Proof.
  destruct (lint_missing_severity_throws Demo.reporting None "a.ts" "var x"
              (Demo.config [mkOptions "liar" error]) Demo.emptyState
              (ts.mkSourceFile "a.ts" "var x")
              [Demo.failureAt "ghost" (ts.mkSourceFile "a.ts" "var x") 0 0
                 "Nobody enabled me" None]
              Demo.emptyState
              [Demo.failureAt "ghost" (ts.mkSourceFile "a.ts" "var x") 0 0
                 "Nobody enabled me" None]
              Demo.emptyState)
    as (failure & Hin & _ & Hthrow & Hkept);
    [reflexivity | reflexivity | discriminate | reflexivity | |].
  - eexists. split; [apply list_elem_of_here | reflexivity].
  - apply list_elem_of_singleton in Hin. subst failure.
    by exists Demo.emptyState.
Defined.

Lemma summary_counts_by_severity_witness :
  exists st3 result,
    lint Demo.reporting None "a.ts" "var x"
         (Demo.config [mkOptions "no-var" error; mkOptions "semicolon" warning])
         Demo.emptyState = (inr tt, st3) /\
    getResult Demo.reporting st3 = (inr result, st3) /\
    errorCount result = 1 /\ warningCount result = 1.
Proof.
  apply (summary_counts_by_severity Demo.reporting None Demo.prose "a.ts" "var x"
           (Demo.config [mkOptions "no-var" error; mkOptions "semicolon" warning])
           Demo.emptyState (ts.mkSourceFile "a.ts" "var x")
           [Demo.failureAt "no-var" (ts.mkSourceFile "a.ts" "var x") 0 3
              "Forbidden 'var' keyword" (Some [Replacement.mk 0 3 "const"]);
            Demo.failureAt "semicolon" (ts.mkSourceFile "a.ts" "var x") 5 5
              "Missing semicolon" (Some [Replacement.mk 5 0 ";"])]
           Demo.emptyState
           (Demo.failureAt "no-var" (ts.mkSourceFile "a.ts" "var x") 0 3
              "Forbidden 'var' keyword" (Some [Replacement.mk 0 3 "const"]))
           (Demo.failureAt "semicolon" (ts.mkSourceFile "a.ts" "var x") 5 5
              "Missing semicolon" (Some [Replacement.mk 5 0 ";"]))
           Demo.emptyState);
    solve [reflexivity | discriminate].
Defined.


(** ** Facts about lists *)

Section ListFacts.

Lemma filter_all_true {A} (keep : A -> bool) (l : list A) :
  (forall x, In x l -> keep x = true) -> List.filter keep l = l.
Proof.
  induction l as [|x l IH]; intros Hall; simpl; [done|].
  rewrite (Hall x) by (by left). f_equal. apply IH. intros y Hy. apply Hall. by right.
Qed.

Lemma filter_idempotent {A} (keep : A -> bool) (l : list A) :
  List.filter keep (List.filter keep l) = List.filter keep l.
Proof. apply filter_all_true. intros x Hx. by apply filter_In in Hx as [_ ?]. Qed.

Lemma length_filter_fst {A B} (keep : A -> bool) (l : list (A * B)) :
  length (List.filter (fun entry => keep (fst entry)) l)
  = length (List.filter keep l.*1).
Proof.
  induction l as [|[a b] l IH]; simpl; [done|].
  destruct (keep a); simpl; by rewrite IH.
Qed.

Lemma NoDup_all_equal {A} (a : A) (l : list A) :
  NoDup l -> (forall x, x ∈ l -> x = a) -> length l <= 1.
Proof.
  intros Hnd Hall. destruct l as [|x [|y l]]; simpl; [lia..|].
  exfalso. apply NoDup_cons in Hnd as [Hx _]. apply Hx.
  rewrite (Hall x), (Hall y); [by apply elem_of_cons; left| |].
  - apply elem_of_cons; right. by apply elem_of_cons; left.
  - by apply elem_of_cons; left.
Qed.

End ListFacts.

(** ** The source file the fix loop works on *)

Section Recomputation.
Context `{Collaborators}.
Variable options : ILinterOptions.
Variable program : option ts.Program.

(** Without a program, what [applyAllFixes] returns is computed from the
    parse of the text the loop ended with. *)
Lemma applyAllFixes_without_program
    enabledRules fileFailures fileName source st final st' :
  program = None ->
  applyAllFixes program enabledRules fileFailures
    (utils_getSourceFile fileName source) fileName st = (inr final, st') ->
  exists current st1,
    fixRules program enabledRules fileFailures fileName
      (utils_getSourceFile fileName source, source) st = (inr current, st1) /\
    final = allFailures program (utils_getSourceFile fileName (snd current)) enabledRules.
Proof.
  intros Hnone Hrun. unfold applyAllFixes in Hrun. simpl in Hrun.
  apply bind_inr_inv in Hrun as (current & st1 & Hloop & Hall).
  exists current, st1. split; [done|].
  rewrite <- (fixRules_without_program _ _ _ _ _ _ _ _ Hnone Hloop).
  destruct (getAllFailures_returns program (fst current) enabledRules st1)
    as (st2 & E & _).
  rewrite E in Hall. by injection Hall as <- _.
Qed.

(** With a program, it is computed from the source file of the program,
    the one the batch before the fixes was computed from. *)
Lemma applyAllFixes_with_program
    p enabledRules fileFailures fileName sourceFile st final st' :
  program = Some p ->
  ts.getSourceFile p fileName = Some sourceFile ->
  applyAllFixes program enabledRules fileFailures sourceFile fileName st
  = (inr final, st') ->
  final = allFailures program sourceFile enabledRules.
Proof.
  intros Hp Hsf Hrun. unfold applyAllFixes in Hrun.
  apply bind_inr_inv in Hrun as (current & st1 & Hloop & Hall).
  rewrite (fixRules_with_program _ _ _ _ _ _ _ _ _ _ Hp Hsf Hloop) in Hall.
  destruct (getAllFailures_returns program sourceFile enabledRules st1)
    as (st2 & E & _).
  rewrite E in Hall. by injection Hall as <- _.
Qed.

End Recomputation.

(** C1.  A linter created with a program and the [fix] option, one rule
    enabled, on a file that starts with [var]: the fix is written to the disk
    ([const x]), and still the failure of the text before the fix is what is
    stamped and accumulated, although the rules find nothing in the text
    after the fix. *)
Theorem stale_program_report :
  let configuration := Demo.config [mkOptions "no-var" error] in
  let run := lint Demo.fixing (Some Demo.staleProgram) "a.ts" "var x" configuration
                  (Demo.onDisk [("/repo/a.ts", "var x")]) in
  fst run = inr tt /\
  disk (snd run) !! "/repo/a.ts" = Some "const x" /\
  failures (snd run)
  = [Demo.failureAt "no-var" (ts.mkSourceFile "a.ts" "var x") 0 3
       "Forbidden 'var' keyword" (Some [Replacement.mk 0 3 "const"])] /\
  allFailures (Some Demo.staleProgram) (utils_getSourceFile "a.ts" "const x")
              (getEnabledRules Demo.fixing configuration (isJsFileName "a.ts")) = [].
Proof. vm_compute. by repeat split. Qed.

(** C2.  The same linter with two rules enabled: after the iteration of the
    first rule the text in memory is [const x], and the source file handed to
    the second rule still reads [var x]; the semicolon of the second rule is
    inserted at offset 5 of the new text.  Without a program the run ends
    with [const x;]. *)
Theorem stale_program_second_rule :
  let configuration :=
    Demo.config [mkOptions "no-var" error; mkOptions "semicolon" warning] in
  let st := Demo.onDisk [("/repo/a.ts", "var x")] in
  let first := fixRule (Some Demo.staleProgram) "a.ts"
                 (mkRule (mkOptions "no-var" error) Demo.noVar None)
                 (ts.mkSourceFile "a.ts" "var x", "var x") st in
  fst first = inr (ts.mkSourceFile "a.ts" "var x", "const x") /\
  writes (snd (lint Demo.fixing (Some Demo.staleProgram) "a.ts" "var x" configuration st))
  = [("a.ts", "const x"); ("a.ts", "const; x")] /\
  writes (snd (lint Demo.fixing None "a.ts" "var x" configuration st))
  = [("a.ts", "const x"); ("a.ts", "const x;")].
Proof. vm_compute. by repeat split. Qed.

(** ** What a run may change, however it ends *)

#[local] Set Warnings "-clear-no-such-hyp".

Section During.
Context `{Collaborators}.
Variable options : ILinterOptions.
Variable program : option ts.Program.
Variable sourceFilePath : string.

Local Abbreviation here := (path_resolve sourceFilePath).
Local Abbreviation lasting := (during sourceFilePath).

Lemma during_refl st : lasting st st.
Proof. unfold during. split_and!; [done..|set_solver]. Qed.

Lemma during_trans st1 st2 st3 : lasting st1 st2 -> lasting st2 st3 -> lasting st1 st3.
Proof.
  intros (Hf1 & Hx1 & Hw1 & Hd1 & Hc1) (Hf2 & Hx2 & Hw2 & Hd2 & Hc2).
  unfold during. split_and!.
  - congruence.
  - by etrans.
  - by etrans.
  - set_solver.
  - set_solver.
Qed.

Lemma quiet_during st st' : quiet st st' -> lasting st st'.
Proof.
  intros (Hf & Hx & Hd & Hw). unfold during. rewrite Hf, Hx, Hd, Hw.
  split_and!; [done..|set_solver].
Qed.

Lemma keeps_ret {A} (a : A) : keeps lasting (ret a).
Proof. intros st. apply during_refl. Qed.

Lemma keeps_throw {A} e : keeps lasting (@throw A e).
Proof. intros st. apply during_refl. Qed.

Lemma keeps_bind {A B} (m : M A) (k : A -> M B) :
  keeps lasting m -> (forall a, keeps lasting (k a)) -> keeps lasting (bind m k).
Proof.
  intros Hm Hk st. unfold bind. specialize (Hm st).
  destruct (m st) as [[e|a] st1]; simpl in *; [done|].
  eapply during_trans; [exact Hm|apply Hk].
Qed.

Lemma keeps_getSourceFile fileName source :
  keeps lasting (getSourceFile program fileName source).
Proof. intros st. rewrite getSourceFile_state. apply during_refl. Qed.

Lemma keeps_applyRule rule sourceFile : keeps lasting (applyRule program rule sourceFile).
Proof.
  intros st. destruct (applyRule_returns program rule sourceFile st) as (st' & E & Hq).
  rewrite E. by apply quiet_during.
Qed.

Lemma keeps_getAllFailures sourceFile enabledRules :
  keeps lasting (getAllFailures program sourceFile enabledRules).
Proof.
  intros st.
  destruct (getAllFailures_returns program sourceFile enabledRules st) as (st' & E & Hq).
  rewrite E. by apply quiet_during.
Qed.

Lemma keeps_addRuleSeverity map fileFailures :
  keeps lasting (addRuleSeverity map fileFailures).
Proof. intros st. rewrite addRuleSeverity_state. apply during_refl. Qed.

Lemma keeps_record_fixes fixableFailures :
  keeps lasting (modify (fun st => set_fixes (fixes st ++ fixableFailures) st)).
Proof.
  intros st. unfold during. simpl. split_and!; [done|by apply prefix_app_r|done..|set_solver].
Qed.

(** A write goes to the linted file or to a file that was read just
    before. *)
Lemma keeps_applyFileFixes source entry :
  keeps lasting (applyFileFixes sourceFilePath source entry).
Proof.
  intros st. destruct entry as [filePath fileFixes].
  destruct (applyFileFixes sourceFilePath source (filePath, fileFixes) st)
    as [[e|source1] st1] eqn:Hstep.
  - apply applyFileFixes_inl in Hstep as (-> & _). apply during_refl.
  - apply applyFileFixes_inr in Hstep
      as [(Hp & -> & ->)|(Hp & -> & oldSource & Hold & ->)];
      unfold during; simpl; rewrite dom_insert_L.
    + split_and!; [done..|by apply prefix_app_r|set_solver|set_solver].
    + assert (path_resolve filePath ∈ dom (disk st)) by (apply elem_of_dom; eauto).
      split_and!; [done..|by apply prefix_app_r|set_solver|set_solver].
Qed.

Lemma keeps_forEach groups source :
  keeps lasting (forEach groups (applyFileFixes sourceFilePath) source).
Proof.
  revert source. induction groups as [|entry rest IH]; intros source; simpl.
  - apply keeps_ret.
  - apply keeps_bind; [apply keeps_applyFileFixes|done].
Qed.

Lemma keeps_fixRule rule current :
  keeps lasting (fixRule program sourceFilePath rule current).
Proof.
  destruct current as [sourceFile source]. unfold fixRule.
  apply keeps_bind; [apply keeps_applyRule|intros ruleFailures].
  apply keeps_bind; [apply keeps_record_fixes|intros _].
  apply keeps_bind; [apply keeps_forEach|intros source'].
  apply keeps_bind; [apply keeps_getSourceFile|intros sourceFile'].
  apply keeps_ret.
Qed.

Lemma keeps_fixRules enabledRules fileFailures current :
  keeps lasting (fixRules program enabledRules fileFailures sourceFilePath current).
Proof.
  revert current. induction enabledRules as [|rule rest IH]; intros current; simpl.
  - apply keeps_ret.
  - destruct (hasFixes fileFailures rule); [|done].
    apply keeps_bind; [apply keeps_fixRule|done].
Qed.

Lemma keeps_finalBatch enabledRules fileFailures sourceFile :
  keeps lasting
    (finalBatch program options enabledRules fileFailures sourceFile sourceFilePath).
Proof.
  unfold finalBatch.
  destruct (fixOption options && existsb hasFix fileFailures); [|apply keeps_ret].
  unfold applyAllFixes.
  apply keeps_bind; [apply keeps_fixRules|intros current].
  apply keeps_getAllFailures.
Qed.

(** The ways [lint] can end, with the state each of them ends in. *)
Lemma lint_outcomes source configuration st :
  let run := lint options program sourceFilePath source configuration st in
  exists st2,
    lasting st st2 /\
    ((exists e, run = (inl e, st2)) \/
     (exists appended,
         run = (inr tt, set_failures (failures st2 ++ appended) st2))).
Proof.
  intros run. subst run.
  set (enabledRules := getEnabledRules options configuration (isJsFileName sourceFilePath)).
  destruct (getSourceFile program sourceFilePath source st)
    as [[e|sourceFile] st0] eqn:Hview.
  { pose proof (getSourceFile_state program sourceFilePath source st) as Hst.
    rewrite Hview in Hst. simpl in Hst. subst st0.
    exists st. split; [apply during_refl|]. left. exists e.
    unfold lint. by rewrite (bind_inl _ _ _ _ _ Hview). }
  pose proof (getSourceFile_state program sourceFilePath source st) as Hst.
  rewrite Hview in Hst. simpl in Hst. subst st0.
  destruct (getAllFailures_returns program sourceFile enabledRules st)
    as (st1 & Hall & Hquiet).
  apply quiet_during in Hquiet.
  destruct (decide (allFailures program sourceFile enabledRules = [])) as [Hnone|Hsome].
  { exists st1. split; [done|]. right. exists []. 
    unfold lint. rewrite (bind_inr _ _ _ _ _ Hview). fold enabledRules.
    rewrite (bind_inr _ _ _ _ _ Hall), Hnone. simpl.
    unfold ret, set_failures. rewrite app_nil_r. by destruct st1. }
  rewrite (lint_nonempty _ _ _ _ _ _ _ _ _ Hview Hall Hsome). fold enabledRules.
  pose proof (keeps_finalBatch enabledRules
                (allFailures program sourceFile enabledRules) sourceFile st1) as Hkept.
  destruct (finalBatch program options enabledRules
              (allFailures program sourceFile enabledRules) sourceFile sourceFilePath st1)
    as [[e|final] st2] eqn:Hfinal; simpl in Hkept.
  { exists st2. split; [by eapply during_trans|]. left. exists e.
    by rewrite (bind_inl _ _ _ _ _ Hfinal). }
  rewrite (bind_inr _ _ _ _ _ Hfinal).
  exists st2. split; [by eapply during_trans|].
  pose proof (addRuleSeverity_state (ruleSeverityMap enabledRules) final st2) as Hsame.
  destruct (addRuleSeverity (ruleSeverityMap enabledRules) final st2)
    as [[e|stampedFailures] st3] eqn:Hstamp; simpl in Hsame; subst st3.
  - left. exists e. by rewrite (bind_inl _ _ _ _ _ Hstamp).
  - right. exists stampedFailures. by rewrite (bind_inr _ _ _ _ _ Hstamp).
Qed.

End During.

(** ** Further properties of [lint] *)

Section LintFrames.
Context `{Collaborators}.
Variable options : ILinterOptions.
Variable program : option ts.Program.

(** X1.  For a file the program does not know, [lint] throws a
    [FatalError] before any rule is run: its message is what [dedent] makes
    of the template around the file name, line breaks and the indent of the
    closing line included, and the state, warnings included, is what it
    was. *)
Theorem lint_unknown_file_is_fatal p fileName source configuration st :
  program = Some p ->
  ts.getSourceFile p fileName = None ->
  lint options program fileName source configuration st
  = (inl (FatalError
            (dedent
               [newline +:+ "                    Invalid source file: ";
                ". Ensure that the files supplied to lint have a .ts, .tsx, .d.ts, .js or .jsx extension."
                  +:+ newline +:+ "                "]
               [fileName])),
     st).
Proof.
  intros -> Hnone. unfold lint, getSourceFile, bind, throw. by rewrite Hnone.
Qed.

(** X2.  With a program, the text handed to [lint] plays no part: two calls
    that differ in it alone do the same. *)
Theorem lint_ignores_text_with_program p fileName source source' configuration st :
  program = Some p ->
  lint options program fileName source configuration st
  = lint options program fileName source' configuration st.
Proof. by intros ->. Qed.

(** X3.  Without the [fix] option, [lint] writes nothing and records no
    fix, whether it returns or throws. *)
Theorem lint_without_fix_option_writes_nothing fileName source configuration st :
  fixOption options = false ->
  let st' := snd (lint options program fileName source configuration st) in
  fixes st' = fixes st /\ disk st' = disk st /\ writes st' = writes st.
Proof.
  intros Hfix. simpl.
  set (enabledRules := getEnabledRules options configuration (isJsFileName fileName)).
  pose proof (getSourceFile_state program fileName source st) as Hst.
  destruct (getSourceFile program fileName source st)
    as [[e|sourceFile] st0] eqn:Hview; simpl in Hst; subst st0.
  { unfold lint. by rewrite (bind_inl _ _ _ _ _ Hview). }
  destruct (getAllFailures_returns program sourceFile enabledRules st)
    as (st1 & Hall & (_ & Hx & Hd & Hw)).
  destruct (decide (allFailures program sourceFile enabledRules = [])) as [Hnone|Hsome].
  { unfold lint. rewrite (bind_inr _ _ _ _ _ Hview). fold enabledRules.
    by rewrite (bind_inr _ _ _ _ _ Hall), Hnone. }
  rewrite (lint_nonempty _ _ _ _ _ _ _ _ _ Hview Hall Hsome). fold enabledRules.
  unfold finalBatch. rewrite Hfix. simpl. rewrite bind_ret.
  pose proof (addRuleSeverity_state (ruleSeverityMap enabledRules)
                (allFailures program sourceFile enabledRules) st1) as Hsame.
  unfold bind.
  destruct (addRuleSeverity (ruleSeverityMap enabledRules)
              (allFailures program sourceFile enabledRules) st1)
    as [[e|stampedFailures] st2]; simpl in Hsame; subst st2; by simpl.
Qed.

(** X4.  Whatever [lint] throws, the failures of the session are what they
    were before the call. *)
Theorem lint_error_keeps_failures fileName source configuration st e st' :
  lint options program fileName source configuration st = (inl e, st') ->
  failures st' = failures st.
Proof.
  intros Hrun.
  destruct (lint_outcomes options program fileName source configuration st)
    as (st2 & (Hf & _) & [(e' & E)|(appended & E)]); rewrite E in Hrun.
  - by injection Hrun as _ <-.
  - done.
Qed.

(** X5.  [lint] only ever appends: the failures, the fixes and the log of
    writes it leaves behind start with those it found, whether it returns or
    throws. *)
Theorem lint_only_appends fileName source configuration st :
  let st' := snd (lint options program fileName source configuration st) in
  failures st `prefix_of` failures st' /\
  fixes st `prefix_of` fixes st' /\
  writes st `prefix_of` writes st'.
Proof.
  simpl.
  destruct (lint_outcomes options program fileName source configuration st)
    as (st2 & (Hf & Hx & Hw & _) & [(e' & ->)|(appended & ->)]); simpl.
  - by rewrite Hf.
  - rewrite Hf. split; [by apply prefix_app_r|done].
Qed.

(** X6.  [lint] removes no file, and the one file it can create is the
    linted one: any other path holds a file afterwards exactly when it did
    before. *)
Theorem lint_keeps_the_set_of_files fileName source configuration st path :
  let st' := snd (lint options program fileName source configuration st) in
  (is_Some (disk st !! path) -> is_Some (disk st' !! path)) /\
  (path ≠ path_resolve fileName ->
   is_Some (disk st' !! path) -> is_Some (disk st !! path)).
Proof.
  simpl. rewrite <- !elem_of_dom.
  destruct (lint_outcomes options program fileName source configuration st)
    as (st2 & (_ & _ & _ & Hd & Hc) & [(e' & ->)|(appended & ->)]); simpl;
    set_solver.
Qed.

End LintFrames.

Lemma lint_unknown_file_is_fatal_witness :
  lint Demo.fixing (Some Demo.staleProgram) "b.ts" "var y"
       (Demo.config [mkOptions "no-var" error]) Demo.emptyState
  = (inl (FatalError
            (newline +:+
             "Invalid source file: b.ts. Ensure that the files supplied to lint have a .ts, .tsx, .d.ts, .js or .jsx extension."
             +:+ newline +:+ "                ")),
     Demo.emptyState).
Proof.
  etrans.
  - apply (lint_unknown_file_is_fatal Demo.fixing (Some Demo.staleProgram)
             Demo.staleProgram "b.ts" "var y" (Demo.config [mkOptions "no-var" error])
             Demo.emptyState); reflexivity.
  - vm_compute. reflexivity.
Defined.

Lemma lint_ignores_text_with_program_witness :
  lint Demo.reporting (Some Demo.staleProgram) "a.ts" "let z;"
       (Demo.config [mkOptions "no-var" error]) Demo.emptyState
  = lint Demo.reporting (Some Demo.staleProgram) "a.ts" "var x"
         (Demo.config [mkOptions "no-var" error]) Demo.emptyState.
Proof.
  apply (lint_ignores_text_with_program Demo.reporting (Some Demo.staleProgram)
           Demo.staleProgram "a.ts" "let z;" "var x"). reflexivity.
Defined.

Lemma lint_without_fix_option_writes_nothing_witness :
  writes (snd (lint Demo.reporting None "a.ts" "var x"
                    (Demo.config [mkOptions "no-var" error; mkOptions "semicolon" warning])
                    (Demo.onDisk [("/repo/a.ts", "var x")]))) = [].
Proof.
  apply (lint_without_fix_option_writes_nothing Demo.reporting None "a.ts" "var x"
           (Demo.config [mkOptions "no-var" error; mkOptions "semicolon" warning])
           (Demo.onDisk [("/repo/a.ts", "var x")])). reflexivity.
Defined.

Lemma lint_error_keeps_failures_witness :
  failures (snd (lint Demo.fixing None "a.ts" "var x"
                      (Demo.config [mkOptions "header-sync" error])
                      Demo.emptyState)) = [].
Proof.
  eapply (lint_error_keeps_failures Demo.fixing None "a.ts" "var x"
            (Demo.config [mkOptions "header-sync" error]) Demo.emptyState).
  vm_compute. reflexivity.
Defined.

(** ** The two maps of the linter *)

Section MultiMapGroups.
Context {T K V : Type} `{EqDecision K}.
Variable getPair : T -> option (K * V).

Lemma elem_of_keys (k : K) (vs : list V) (map : list (K * list V)) :
  (k, vs) ∈ map -> k ∈ map.*1.
Proof. intros Hin. apply list_elem_of_fmap. by exists (k, vs). Qed.

Lemma multiMapAdd_elem_of (k0 : K) (v : V) map k vs :
  NoDup map.*1 ->
  (k, vs) ∈ multiMapAdd k0 v map <->
  (k ≠ k0 /\ (k, vs) ∈ map) \/
  (k = k0 /\ (exists vs0, (k0, vs0) ∈ map /\ vs = vs0 ++ [v])) \/
  (k = k0 /\ (k0 ∉ map.*1) /\ vs = [v]).
Proof.
  induction map as [|[k' vs'] rest IH]; intros Hnd; simpl.
  - rewrite list_elem_of_singleton. setoid_rewrite elem_of_nil. naive_solver.
  - apply NoDup_cons in Hnd as [Hfresh Hnd]. simpl in Hfresh.
    pose proof (elem_of_keys k') as Hkeys'.
    pose proof (elem_of_keys k) as Hkeys.
    case_decide as Hk.
    + subst k'. rewrite !elem_of_cons. setoid_rewrite elem_of_cons. naive_solver.
    + rewrite !elem_of_cons, (IH Hnd). setoid_rewrite elem_of_cons. naive_solver.
Qed.

Lemma valuesOf_cons (k : K) input rest :
  valuesOf getPair k (input :: rest)
  = match getPair input with
    | Some (k', v) => if decide (k' = k) then v :: valuesOf getPair k rest
                      else valuesOf getPair k rest
    | None => valuesOf getPair k rest
    end.
Proof.
  unfold valuesOf. simpl. destruct (getPair input) as [[k' v]|]; [|done].
  by case_decide.
Qed.

Lemma foldl_addPair_elem_of inputs map k vs :
  NoDup map.*1 ->
  (k, vs) ∈ foldl (addPair getPair) map inputs <->
  (exists vs0, (k, vs0) ∈ map /\ vs = vs0 ++ valuesOf getPair k inputs) \/
  ((k ∉ map.*1) /\ vs = valuesOf getPair k inputs /\ vs ≠ []).
Proof.
  revert map. induction inputs as [|input rest IH]; intros map Hnd.
  - simpl. split.
    + intros Hin. left. exists vs. by rewrite app_nil_r.
    + intros [(vs0 & Hin & ->)|(_ & -> & Hne)]; [by rewrite app_nil_r|done].
  - rewrite valuesOf_cons. simpl. unfold addPair at 2.
    destruct (getPair input) as [[k0 v]|] eqn:Hpair; [|by apply IH].
    rewrite IH by (by apply multiMapAdd_NoDup).
    rewrite multiMapAdd_elem_of_keys.
    setoid_rewrite (multiMapAdd_elem_of k0 v map k _ Hnd).
    pose proof (elem_of_keys k) as Hkeys.
    case_decide as Hk.
    + subst k0. split.
      * intros [(vs0 & [[Hne _]|[(_ & vs1 & Hin & ->)|(_ & Hnot & ->)]] & ->)
               |(Hnot & _)].
        -- done.
        -- left. exists vs1. split; [done|]. by rewrite <- app_assoc.
        -- right. done.
        -- exfalso. apply Hnot. by left.
      * intros [(vs1 & Hin & ->)|(Hnot & -> & _)].
        -- left. exists (vs1 ++ [v]). split; [|by rewrite <- app_assoc].
           right. left. split; [done|]. by exists vs1.
        -- left. exists [v]. split; [|done]. right. right. done.
    + naive_solver.
Qed.

(** X7.  [createMultiMap] lists every key once, and under a key exactly the
    values of the inputs with that key, in the order of the inputs; a key
    without an input is not listed. *)
Theorem createMultiMap_groups inputs :
  NoDup (createMultiMap inputs getPair).*1 /\
  forall k vs,
    (k, vs) ∈ createMultiMap inputs getPair <->
    vs = valuesOf getPair k inputs /\ vs ≠ [].
Proof.
  split; [apply createMultiMap_NoDup|].
  intros k vs. rewrite createMultiMap_fold, foldl_addPair_elem_of by constructor.
  split.
  - intros [(vs0 & Hin & _)|(_ & ? & ?)]; [by apply elem_of_nil in Hin|done].
  - intros [-> Hne]. right. split_and!; [apply not_elem_of_nil|done..].
Qed.

Lemma filter_without_member (k : K) (ks keys : list K) :
  k ∈ ks ->
  List.filter (fun k' => negb (bool_decide (k' ∈ ks)))
              (List.filter (fun k' => negb (bool_decide (k' = k))) keys)
  = List.filter (fun k' => negb (bool_decide (k' ∈ ks))) keys.
Proof.
  intros Hin. induction keys as [|k' keys IH]; simpl; [done|].
  destruct (decide (k' = k)) as [->|Hne].
  - rewrite bool_decide_eq_true_2 by done. simpl.
    by rewrite (bool_decide_eq_true_2 (k ∈ ks)) by done.
  - rewrite (bool_decide_eq_false_2 (k' = k)) by done. simpl. by rewrite IH.
Qed.

Lemma filter_without_snoc (k : K) (ks keys : list K) :
  List.filter (fun k' => negb (bool_decide (k' ∈ ks ++ [k]))) keys
  = List.filter (fun k' => negb (bool_decide (k' ∈ ks)))
                (List.filter (fun k' => negb (bool_decide (k' = k))) keys).
Proof.
  induction keys as [|k' keys IH]; simpl; [done|].
  destruct (decide (k' = k)) as [->|Hne].
  - rewrite (bool_decide_eq_true_2 (k ∈ ks ++ [k])) by set_solver.
    rewrite (bool_decide_eq_true_2 (k = k)) by done. simpl. exact IH.
  - rewrite (bool_decide_eq_false_2 (k' = k)) by done. simpl.
    destruct (decide (k' ∈ ks)) as [Hin|Hnot].
    + rewrite (bool_decide_eq_true_2 (k' ∈ ks ++ [k])) by set_solver.
      rewrite (bool_decide_eq_true_2 (k' ∈ ks)) by done. simpl. exact IH.
    + rewrite (bool_decide_eq_false_2 (k' ∈ ks ++ [k])) by set_solver.
      rewrite (bool_decide_eq_false_2 (k' ∈ ks)) by done. simpl. by rewrite IH.
Qed.

(** The keys of the multimap come in the order in which the inputs first
    mention them. *)
Lemma foldl_addPair_key_order inputs (map : list (K * list V)) :
  (foldl (addPair getPair) map inputs).*1
  = map.*1 ++ List.filter (fun k => negb (bool_decide (k ∈ map.*1)))
                          (distinct (keysOf getPair inputs)).
Proof.
  revert map. induction inputs as [|input rest IH]; intros map.
  - simpl. by rewrite app_nil_r.
  - cbn [foldl]. destruct (getPair input) as [[k v]|] eqn:Hpair.
    2:{ replace (addPair getPair map input) with map
          by (unfold addPair; by rewrite Hpair).
        replace (keysOf getPair (input :: rest)) with (keysOf getPair rest)
          by (unfold keysOf; simpl; by rewrite Hpair).
        apply IH. }
    replace (addPair getPair map input) with (multiMapAdd k v map)
      by (unfold addPair; by rewrite Hpair).
    replace (keysOf getPair (input :: rest)) with (k :: keysOf getPair rest)
      by (unfold keysOf; simpl; by rewrite Hpair).
    rewrite IH. simpl.
    destruct (multiMapAdd_keys k v map) as [[<- Hnot]|[<- Hin]].
    + rewrite (bool_decide_eq_false_2 (k ∈ map.*1)) by done. simpl.
      rewrite <- app_assoc. simpl. by rewrite filter_without_snoc.
    + rewrite (bool_decide_eq_true_2 (k ∈ map.*1)) by done. simpl.
      by rewrite filter_without_member.
Qed.

Lemma createMultiMap_key_order inputs :
  (createMultiMap inputs getPair).*1 = distinct (keysOf getPair inputs).
Proof.
  rewrite createMultiMap_fold, foldl_addPair_key_order.
  change (([] : list (K * list V)).*1) with (@nil K). rewrite app_nil_l.
  apply filter_all_true. intros k _.
  apply negb_true_iff, bool_decide_eq_false_2, not_elem_of_nil.
Qed.

(** The multimap in full: for each key, in the order of first mention, the
    values of the inputs with that key. *)
Lemma createMultiMap_spec inputs :
  createMultiMap inputs getPair
  = (fun k => (k, valuesOf getPair k inputs)) <$> distinct (keysOf getPair inputs).
Proof.
  rewrite <- createMultiMap_key_order, <- list_fmap_compose.
  rewrite <- (list_fmap_id (createMultiMap inputs getPair)) at 1.
  apply Forall_fmap_ext_1, Forall_forall. intros [k vs] Hin. simpl.
  rewrite createMultiMap_fold in Hin.
  apply foldl_addPair_elem_of in Hin as [(vs0 & Hnil & _)|(_ & -> & _)];
    [by apply elem_of_nil in Hnil|done|constructor].
Qed.

End MultiMapGroups.

Section SeverityMap.
Context `{Collaborators}.

Lemma foldl_severity_lookup enabledRules (map : gmap string RuleSeverity) name :
  foldl (fun map rule =>
           <[ruleName (getOptions rule) := ruleSeverity (getOptions rule)]> map)
        map enabledRules !! name
  = match last (rulesNamed name enabledRules) with
    | Some rule => Some (ruleSeverity (getOptions rule))
    | None => map !! name
    end.
Proof.
  revert map. induction enabledRules as [|rule rest IH]; intros map; simpl; [done|].
  rewrite IH. unfold rulesNamed in *. simpl.
  destruct (String.eqb_spec (ruleName (getOptions rule)) name) as [Hname|Hname].
  - rewrite last_cons. destruct (last (List.filter _ rest)); [done|].
    rewrite Hname. apply lookup_insert_eq.
  - destruct (last (List.filter _ rest)); [done|]. by apply lookup_insert_ne.
Qed.

(** X8.  The severity map holds, for a name, the severity of the last
    enabled rule with that name, and nothing for a name no enabled rule
    has. *)
Theorem severity_of_last_rule_named enabledRules name :
  ruleSeverityMap enabledRules !! name
  = (fun rule => ruleSeverity (getOptions rule)) <$> last (rulesNamed name enabledRules).
Proof.
  unfold ruleSeverityMap. rewrite foldl_severity_lookup.
  by destruct (last (rulesNamed name enabledRules)).
Qed.

Lemma ruleSeverityMap_is_Some enabledRules rule :
  rule ∈ enabledRules ->
  is_Some (ruleSeverityMap enabledRules !! ruleName (getOptions rule)).
Proof.
  intros Hin. unfold ruleSeverityMap. rewrite foldl_severity_lookup.
  assert (rule ∈ rulesNamed (ruleName (getOptions rule)) enabledRules) as Hnamed.
  { apply list_elem_of_In, filter_In. split; [by apply list_elem_of_In|].
    apply String.eqb_refl. }
  destruct (rulesNamed (ruleName (getOptions rule)) enabledRules) as [|r l] eqn:E using rev_ind.
  - by apply elem_of_nil in Hnamed.
  - rewrite last_snoc. by eauto.
Qed.

Lemma addRuleSeverity_stamped map fileFailures st :
  (forall failure, failure ∈ fileFailures -> is_Some (map !! getRuleName failure)) ->
  addRuleSeverity map fileFailures st = (inr (stamped map <$> fileFailures), st).
Proof.
  induction fileFailures as [|first rest IH]; intros Hall; simpl; [done|].
  destruct (Hall first) as [severity Hs]; [by apply elem_of_cons; left|].
  rewrite Hs.
  rewrite (bind_inr _ _ _ _ _
             (IH (fun f Hf => Hall f (proj2 (elem_of_cons _ _ _) (or_intror Hf))))).
  unfold stamped at 2. by rewrite Hs.
Qed.

End SeverityMap.

(** ** The groups of fixes, said without the multimap *)

Section Groups.
Context `{Collaborators}.
Variable sourceFilePath : string.

Local Abbreviation here := (path_resolve sourceFilePath).
Local Abbreviation atPath r := (fun group : string * list (option Fix) =>
                                  bool_decide (path_resolve (fst group) = r)).

Lemma keysOf_fileNames (fixableFailures : list RuleFailure) :
  keysOf (fun f => Some (getFileName f, getFix f)) fixableFailures
  = getFileName <$> fixableFailures.
Proof.
  unfold keysOf. induction fixableFailures as [|f rest IH]; [done|].
  cbn [omap list_omap fmap option_fmap option_map fst list_fmap]. by f_equal.
Qed.

Lemma valuesOf_fixesFor filePath (fixableFailures : list RuleFailure) :
  valuesOf (fun f => Some (getFileName f, getFix f)) filePath fixableFailures
  = fixesFor filePath fixableFailures.
Proof.
  induction fixableFailures as [|f rest IH]; [done|].
  rewrite valuesOf_cons. cbn beta iota. rewrite IH.
  unfold fixesFor. cbn [List.filter].
  destruct (String.eqb_spec (getFileName f) filePath) as [Hname|Hname].
  - by rewrite decide_True by done.
  - by rewrite decide_False by done.
Qed.

(** The multimap [applyFixes] builds holds, for each file name in the order
    of first mention, the fixes reported under that name. *)
Lemma fixesByFile_groupsOf fixableFailures :
  fixesByFile fixableFailures = groupsOf fixableFailures.
Proof.
  unfold fixesByFile, groupsOf, fileNames.
  rewrite createMultiMap_spec, keysOf_fileNames.
  apply Forall_fmap_ext_1, Forall_forall. intros filePath _.
  by rewrite valuesOf_fixesFor.
Qed.

(** The groups for the file at one path are the groups of the failures
    reported for that file. *)
Lemma groupsOf_aimedAt resolved fixableFailures :
  List.filter (atPath resolved) (groupsOf fixableFailures)
  = groupsOf (aimedAt resolved fixableFailures).
Proof.
  rewrite <- !fixesByFile_groupsOf. unfold fixesByFile, aimedAt.
  rewrite <- (createMultiMap_filter
                (fun f => Some (getFileName f, getFix f))
                (fun filePath => bool_decide (path_resolve filePath = resolved))
                (fun f => bool_decide (path_resolve (getFileName f) = resolved)));
    [done|].
  by intros f k v [= <- _].
Qed.

Lemma distinct_subset {K} `{EqDecision K} (keys : list K) k :
  k ∈ distinct keys -> k ∈ keys.
Proof.
  induction keys as [|k0 rest IH]; simpl; [done|].
  rewrite !elem_of_cons. intros [->|Hin]; [by left|].
  right. apply IH. apply list_elem_of_In in Hin. apply filter_In in Hin as [Hin _].
  by apply list_elem_of_In.
Qed.

Lemma distinct_all_equal {K} `{EqDecision K} (keys : list K) k :
  keys ≠ [] -> (forall k', k' ∈ keys -> k' = k) -> distinct keys = [k].
Proof.
  intros Hsome Hall. destruct keys as [|k0 rest]; [done|]. simpl.
  rewrite (Hall k0) by (by apply elem_of_cons; left). f_equal.
  assert (forall k', In k' (distinct rest) -> k' = k) as Hrest.
  { intros k' Hin%list_elem_of_In%distinct_subset.
    apply Hall. by apply elem_of_cons; right. }
  induction (distinct rest) as [|k1 l IH]; simpl; [done|].
  rewrite (Hrest k1) by (by left).
  rewrite bool_decide_eq_true_2 by done. simpl.
  apply IH. intros k' Hin. apply Hrest. by right.
Qed.

(** Failures that all name their file alike make one group. *)
Lemma groupsOf_alike filePath fixableFailures :
  fixableFailures ≠ [] ->
  (forall f, f ∈ fixableFailures -> getFileName f = filePath) ->
  groupsOf fixableFailures = [(filePath, getFix <$> fixableFailures)].
Proof.
  intros Hsome Hall. unfold groupsOf, fileNames.
  rewrite (distinct_all_equal _ filePath).
  - simpl. unfold fixesFor. rewrite filter_all_true; [done|].
    intros f Hin%list_elem_of_In. apply String.eqb_eq. by apply Hall.
  - by destruct fixableFailures.
  - intros k (f & -> & Hin)%list_elem_of_fmap. by apply Hall.
Qed.

Lemma mergeWrites_keys content groups : (mergeWrites content groups).*1 = groups.*1.
Proof.
  revert content. induction groups as [|[filePath fileFixes] rest IH]; intros content;
    simpl; [done|]. by rewrite IH.
Qed.

Lemma mergeWrites_last content groups :
  groups ≠ [] ->
  exists filePath,
    last (mergeWrites content groups) = Some (filePath, mergeGroups content groups).
Proof.
  revert content. induction groups as [|[filePath fileFixes] rest IH]; intros content Hsome;
    [done|].
  destruct rest as [|next rest].
  - by exists filePath.
  - destruct (IH (Replacement_applyFixes content fileFixes)) as (p & Hlast); [done|].
    exists p. cbn [mergeWrites]. rewrite last_cons.
    cbn [mergeWrites] in Hlast. by rewrite Hlast.
Qed.

(** What a run of [applyFixes] that ended normally wrote: to the linted
    file the texts merged in memory, to any other file the texts merged from
    what the file held. *)
Lemma forEach_log groups source st source' st' :
  forEach groups (applyFileFixes sourceFilePath) source st = (inr source', st') ->
  exists log,
    writes st' = writes st ++ log /\
    writesTo here log = mergeWrites source (List.filter (atPath here) groups) /\
    forall resolved oldSource,
      resolved ≠ here -> disk st !! resolved = Some oldSource ->
      writesTo resolved log
      = mergeWrites oldSource (List.filter (atPath resolved) groups).
Proof.
  revert source st. induction groups as [|[filePath fileFixes] rest IH];
    intros source st Hrun.
  - injection Hrun as <- <-. exists []. by rewrite app_nil_r.
  - cbn [forEach] in Hrun.
    apply bind_inr_inv in Hrun as (source1 & st1 & Hstep & Hrest).
    destruct (IH _ _ Hrest) as (log & Hlog & Hhere & Hother).
    apply applyFileFixes_inr in Hstep
      as [(Hp & -> & ->)|(Hp & -> & oldSource & Hold & ->)]; simpl in Hlog, Hother.
    + eexists (_ :: log). split_and!.
      * rewrite Hlog, <- app_assoc. reflexivity.
      * unfold writesTo in *. simpl.
        rewrite !bool_decide_eq_true_2 by done. simpl. by rewrite Hhere.
      * intros resolved old Hne Hdisk. unfold writesTo in *. simpl.
        rewrite !bool_decide_eq_false_2 by congruence.
        apply Hother; [done|]. by rewrite lookup_insert_ne by congruence.
    + eexists (_ :: log). split_and!.
      * rewrite Hlog, <- app_assoc. reflexivity.
      * unfold writesTo in *. simpl.
        rewrite !bool_decide_eq_false_2 by done. exact Hhere.
      * intros resolved old Hne Hdisk. unfold writesTo in *. simpl.
        destruct (decide (path_resolve filePath = resolved)) as [<-|Hdiff].
        -- rewrite !bool_decide_eq_true_2 by done. simpl.
           rewrite Hold in Hdisk. injection Hdisk as <-. f_equal.
           apply Hother; [done|]. by rewrite lookup_insert_eq.
        -- rewrite !bool_decide_eq_false_2 by done.
           apply Hother; [done|]. by rewrite lookup_insert_ne.
Qed.

(** A run of [applyFixes] that ended normally met no write it could not
    do. *)
Lemma forEach_writable groups source st source' st' :
  forEach groups (applyFileFixes sourceFilePath) source st = (inr source', st') ->
  forall filePath, filePath ∈ groups.*1 -> writeErrors st !! path_resolve filePath = None.
Proof.
  revert source st. induction groups as [|[filePath fileFixes] rest IH];
    intros source st Hrun p Hin.
  - by apply elem_of_nil in Hin.
  - cbn [forEach] in Hrun.
    apply bind_inr_inv in Hrun as (source1 & st1 & Hstep & Hrest).
    apply applyFileFixes_inr_writable in Hstep as (Hnone & _ & Hkept & _).
    simpl in Hin. apply elem_of_cons in Hin as [->|Hin]; [done|].
    rewrite <- Hkept. by eapply IH.
Qed.

(** Nor a file it could not read. *)
Lemma forEach_could_read groups source st source' st' :
  forEach groups (applyFileFixes sourceFilePath) source st = (inr source', st') ->
  forall filePath, filePath ∈ groups.*1 -> path_resolve filePath ≠ here ->
                   readErrors st !! path_resolve filePath = None.
Proof.
  revert source st. induction groups as [|[filePath fileFixes] rest IH];
    intros source st Hrun p Hin Hp.
  - by apply elem_of_nil in Hin.
  - cbn [forEach] in Hrun.
    apply bind_inr_inv in Hrun as (source1 & st1 & Hstep & Hrest).
    apply applyFileFixes_inr_writable in Hstep as (_ & Hnone & _ & Hkept).
    simpl in Hin. apply elem_of_cons in Hin as [->|Hin]; [by apply Hnone|].
    rewrite <- Hkept. by eapply IH.
Qed.

End Groups.

(** ** Further properties of reporting and fixing *)

Section Reporting.
Context `{Collaborators}.
Variable options : ILinterOptions.
Variable program : option ts.Program.

(** X9.  When no fix is to be applied and every failure carries the name of
    an enabled rule, [lint] returns and appends to the failures of the
    session the failures of the enabled rules that suppression leaves, in the
    order of the rules, each with the severity of its rule; fixes and disk
    are untouched. *)
Theorem lint_appends_stamped_batch fileName source configuration st sourceFile :
  let enabledRules := getEnabledRules options configuration (isJsFileName fileName) in
  let batch := allFailures program sourceFile enabledRules in
  getSourceFile program fileName source st = (inr sourceFile, st) ->
  fixOption options && existsb hasFix batch = false ->
  (forall failure, failure ∈ batch ->
     exists rule, rule ∈ enabledRules /\ ruleName (getOptions rule) = getRuleName failure) ->
  exists st',
    lint options program fileName source configuration st = (inr tt, st') /\
    failures st' = failures st ++ (stamped (ruleSeverityMap enabledRules) <$> batch) /\
    fixes st' = fixes st /\ disk st' = disk st /\ writes st' = writes st.
Proof.
  intros enabledRules batch Hview Hnofix Hnamed.
  destruct (getAllFailures_returns program sourceFile enabledRules st)
    as (st1 & Hall & (Hf & Hx & Hd & Hw)).
  fold batch in Hall.
  destruct (decide (batch = [])) as [Hnone|Hsome].
  - exists st1. rewrite Hnone, app_nil_r. split_and!; [|done..].
    unfold lint. rewrite (bind_inr _ _ _ _ _ Hview). fold enabledRules.
    by rewrite (bind_inr _ _ _ _ _ Hall), Hnone.
  - exists (set_failures (failures st1 ++ (stamped (ruleSeverityMap enabledRules) <$> batch))
                         st1).
    simpl. rewrite Hf. split_and!; [|done..].
    rewrite (lint_nonempty _ _ _ _ _ _ _ _ _ Hview Hall Hsome). fold enabledRules.
    unfold finalBatch. rewrite Hnofix, bind_ret.
    assert (forall failure, failure ∈ batch ->
              is_Some (ruleSeverityMap enabledRules !! getRuleName failure)) as Hentries.
    { intros failure Hin. destruct (Hnamed failure Hin) as (rule & Hrule & <-).
      by apply ruleSeverityMap_is_Some. }
    rewrite (bind_inr _ _ _ _ _
               (addRuleSeverity_stamped (ruleSeverityMap enabledRules) batch st1 Hentries)).
    unfold modify. by rewrite Hf.
Qed.

End Reporting.

Section Fixing.
Context `{Collaborators}.
Variable program : option ts.Program.
Variable sourceFilePath : string.

Local Abbreviation here := (path_resolve sourceFilePath).

Lemma readable_of_keys st fixableFailures :
  (forall filePath, filePath ∈ (fixesByFile fixableFailures).*1 ->
                    path_resolve filePath ≠ here ->
                    is_Some (disk st !! path_resolve filePath) /\
                    readErrors st !! path_resolve filePath = None) ->
  readable sourceFilePath st fixableFailures = true.
Proof.
  intros Hkeys. unfold readable. apply forallb_forall. intros f Hin.
  apply list_elem_of_In in Hin. unfold targets.
  destruct (decide (path_resolve (getFileName f) = here)) as [Hp|Hp].
  - by rewrite bool_decide_eq_true_2.
  - rewrite bool_decide_eq_false_2 by done. simpl.
    destruct (Hkeys (getFileName f)) as [Hsome Hcan]; [|done|].
    { apply fixesByFile_keys. by exists f. }
    by rewrite !bool_decide_eq_true_2.
Qed.

Lemma writable_of_keys st fixableFailures :
  (forall filePath, filePath ∈ (fixesByFile fixableFailures).*1 ->
                    writeErrors st !! path_resolve filePath = None) ->
  writable st fixableFailures = true.
Proof.
  intros Hkeys. unfold writable. apply forallb_forall. intros f Hin.
  apply list_elem_of_In in Hin. apply bool_decide_eq_true_2.
  apply Hkeys, fixesByFile_keys. by exists f.
Qed.

(** X10.  [applyFixes] returns exactly when every file other than the
    linted one that a failure is reported for is on the disk and can be read,
    and every file a failure is reported for can be written; otherwise
    [readFileSync] or [writeFileSync] makes it throw. *)
Theorem applyFixes_returns_iff_readable source fixableFailures st :
  (exists source' st',
      applyFixes sourceFilePath source fixableFailures st = (inr source', st'))
  <-> readable sourceFilePath st fixableFailures = true /\
      writable st fixableFailures = true.
Proof.
  split.
  - intros (source' & st' & Hrun). split.
    + apply readable_of_keys.
      intros filePath Hkey Hp. split.
      * apply (forEach_disk_other _ _ _ _ _ _ _ Hrun Hp).
        apply list_elem_of_fmap in Hkey as ([k vs] & -> & Hgroup). simpl.
        intros Hnil.
        assert ((k, vs) ∈ List.filter
                  (fun group : string * list (option Fix) =>
                     bool_decide (path_resolve (fst group) = path_resolve k))
                  (fixesByFile fixableFailures)) as Hmem.
        { apply list_elem_of_In, filter_In. split; [by apply list_elem_of_In|].
          by apply bool_decide_eq_true_2. }
        rewrite Hnil in Hmem. by apply elem_of_nil in Hmem.
      * by apply (forEach_could_read _ _ _ _ _ _ Hrun).
    + apply writable_of_keys. by apply (forEach_writable _ _ _ _ _ _ Hrun).
  - intros [Hread Hwrite]. apply forEach_returns.
    + by apply readable_spec.
    + by apply writable_spec.
Qed.

(** X11.  When [applyFixes] returns, it has called [writeFileSync] once for
    every file name among the failures and for no other name, in the order
    in which the failures first mention the names. *)
Theorem applyFixes_writes_each_file_once source fixableFailures st source' st' :
  applyFixes sourceFilePath source fixableFailures st = (inr source', st') ->
  exists log,
    writes st' = writes st ++ log /\
    log.*1 = distinct (getFileName <$> fixableFailures) /\
    NoDup log.*1 /\
    forall filePath,
      filePath ∈ log.*1 <-> exists f, f ∈ fixableFailures /\ getFileName f = filePath.
Proof.
  intros Hrun. destruct (forEach_writes _ _ _ _ _ _ Hrun) as (log & Hlog & Hkeys & _).
  exists log. split_and!; [done| | |].
  - rewrite Hkeys, fixesByFile_groupsOf. unfold groupsOf, fileNames.
    rewrite <- list_fmap_compose. apply list_fmap_id.
  - rewrite Hkeys. apply createMultiMap_NoDup.
  - intros filePath. rewrite Hkeys. apply fixesByFile_keys.
Qed.

Lemma forEach_fixes_any groups source st :
  fixes (snd (forEach groups (applyFileFixes sourceFilePath) source st)) = fixes st.
Proof.
  revert source st. induction groups as [|[filePath fileFixes] rest IH];
    intros source st; [done|].
  cbn [forEach].
  destruct (applyFileFixes sourceFilePath source (filePath, fileFixes) st)
    as [[e|source1] st1] eqn:Hstep.
  - rewrite (bind_inl _ _ _ _ _ Hstep).
    by apply applyFileFixes_inl in Hstep as (-> & _).
  - rewrite (bind_inr _ _ _ _ _ Hstep), IH.
    by apply applyFileFixes_inr in Hstep
      as [(_ & _ & ->)|(_ & _ & oldSource & _ & ->)].
Qed.

(** X12.  An iteration of the fix loop records the fixable failures of its
    rule in the fixes of the session before it applies them: they are there
    even when [applyFixes] or [getSourceFile] throws. *)
Theorem fixes_are_recorded_before_applied rule sourceFile source st :
  fixes (snd (fixRule program sourceFilePath rule (sourceFile, source) st))
  = fixes st ++ freshFixableFailures program rule sourceFile.
Proof.
  destruct (applyRule_returns program rule sourceFile st) as (st0 & Hrule & (_ & Hx & _)).
  unfold fixRule. rewrite (bind_inr _ _ _ _ _ Hrule).
  fold (freshFixableFailures program rule sourceFile).
  set (fixable := freshFixableFailures program rule sourceFile).
  unfold modify. rewrite bind_inr with (a := tt)
    (st' := set_fixes (fixes st0 ++ fixable) st0) by done.
  pose proof (forEach_fixes_any (fixesByFile fixable) source
                (set_fixes (fixes st0 ++ fixable) st0)) as Hkept.
  unfold applyFixes, bind at 1.
  destruct (forEach (fixesByFile fixable) (applyFileFixes sourceFilePath) source
              (set_fixes (fixes st0 ++ fixable) st0)) as [[e|source1] st1];
    simpl in Hkept; [simpl; by rewrite Hkept, Hx|].
  unfold bind. pose proof (getSourceFile_state program sourceFilePath source1 st1) as Hst.
  destruct (getSourceFile program sourceFilePath source1 st1) as [[e|sourceFile1] st2];
    simpl in *; subst st2; by rewrite Hkept, Hx.
Qed.

Lemma hasFixes_spec fileFailures rule :
  hasFixes fileFailures rule = true <->
  exists f, f ∈ fileFailures /\ hasFix f = true /\
            getRuleName f = ruleName (getOptions rule).
Proof.
  unfold hasFixes. rewrite existsb_exists. split.
  - intros (f & Hin & [Hfix Hname%String.eqb_eq]%andb_true_iff).
    exists f. by rewrite list_elem_of_In.
  - intros (f & Hin & Hfix & Hname). exists f. rewrite <- list_elem_of_In.
    split; [done|]. rewrite Hfix. by apply String.eqb_eq.
Qed.

(** X13.  The fix loop runs a rule only when the batch it was given holds a
    fixable failure under the name of the rule: it does what it does on the
    rules with such a failure alone, and with none of them it changes
    nothing. *)
Theorem fix_loop_runs_only_rules_with_fixes enabledRules fileFailures current st :
  (forall rule,
      hasFixes fileFailures rule = true <->
      exists f, f ∈ fileFailures /\ hasFix f = true /\
                getRuleName f = ruleName (getOptions rule)) /\
  fixRules program enabledRules fileFailures sourceFilePath current st
  = fixRules program (List.filter (hasFixes fileFailures) enabledRules)
             fileFailures sourceFilePath current st /\
  ((forall f, f ∈ fileFailures -> hasFix f = true ->
      forall rule, rule ∈ enabledRules -> getRuleName f ≠ ruleName (getOptions rule)) ->
   fixRules program enabledRules fileFailures sourceFilePath current st
   = (inr current, st)).
Proof.
  split_and!.
  - intros rule. apply hasFixes_spec.
  - apply fixRules_filter.
  - intros Hnone. rewrite fixRules_filter.
    replace (List.filter (hasFixes fileFailures) enabledRules) with (@nil IRule); [done|].
    symmetry. induction enabledRules as [|rule rest IH]; simpl; [done|].
    destruct (hasFixes fileFailures rule) eqn:Hfix.
    + apply hasFixes_spec in Hfix as (f & Hin & Hf & Hname).
      exfalso. eapply Hnone; [done..| |done]. by apply elem_of_cons; left.
    + apply IH. intros f Hin Hf r Hr. apply Hnone; [done..|]. by apply elem_of_cons; right.
Qed.

End Fixing.

(** ** Fixing without a program *)

Section WithoutProgram.
Context `{Collaborators}.
Variable options : ILinterOptions.
Variable sourceFilePath : string.

Local Abbreviation here := (path_resolve sourceFilePath).

Lemma forEach_disk_here_unchanged groups source st source' st' :
  forEach groups (applyFileFixes sourceFilePath) source st = (inr source', st') ->
  List.filter (fun group : string * list (option Fix) =>
                 bool_decide (path_resolve (fst group) = here)) groups = [] ->
  disk st' !! here = disk st !! here.
Proof.
  revert source st. induction groups as [|[filePath fileFixes] rest IH];
    intros source st Hrun Hnone.
  - by injection Hrun as _ <-.
  - simpl in Hnone.
    destruct (bool_decide (path_resolve filePath = here)) eqn:Hp; [done|].
    apply bool_decide_eq_false_1 in Hp.
    cbn [forEach] in Hrun.
    apply bind_inr_inv in Hrun as (source1 & st1 & Hstep & Hrest).
    rewrite (IH _ _ Hrest Hnone).
    apply applyFileFixes_inr in Hstep
      as [(Hp' & _)|(_ & _ & oldSource & _ & ->)]; [done|].
    simpl. by rewrite lookup_insert_ne.
Qed.

(** After [applyFixes] the disk holds the text in memory for the linted
    file, unless no failure was for that file: then text and file are what
    they were. *)
Lemma applyFixes_here_cases source fixableFailures st source' st' :
  applyFixes sourceFilePath source fixableFailures st = (inr source', st') ->
  disk st' !! here = Some source' \/
  (source' = source /\ disk st' !! here = disk st !! here).
Proof.
  intros Hrun. unfold applyFixes in Hrun.
  destruct (decide (List.filter
                      (fun group : string * list (option Fix) =>
                         bool_decide (path_resolve (fst group) = here))
                      (fixesByFile fixableFailures) = [])) as [Hnone|Hsome].
  - right. split.
    + rewrite (forEach_source _ _ _ _ _ _ Hrun). by rewrite Hnone.
    + by apply (forEach_disk_here_unchanged _ _ _ _ _ Hrun).
  - left. by apply (forEach_disk_here _ _ _ _ _ _ Hrun).
Qed.

Lemma fixRules_here_cases program enabledRules fileFailures current st current' st' :
  fixRules program enabledRules fileFailures sourceFilePath current st
  = (inr current', st') ->
  disk st' !! here = Some (snd current') \/
  (snd current' = snd current /\ disk st' !! here = disk st !! here).
Proof.
  revert current st. induction enabledRules as [|rule rest IH]; intros current st; simpl.
  - intros [= <- <-]. by right.
  - destruct (hasFixes fileFailures rule); [|by apply IH].
    intros Hrun.
    apply bind_inr_inv in Hrun as ([sourceFile1 source1] & st1 & Hstep & Hrest).
    destruct current as [sourceFile source].
    apply fixRule_inr in Hstep as (st0 & (_ & _ & Hdisk & _) & Hfix & _).
    apply applyFixes_here_cases in Hfix. simpl in Hfix. rewrite Hdisk in Hfix.
    apply IH in Hrest. simpl in *.
    destruct Hrest as [Hwritten|[-> Hsame]]; [by left|].
    rewrite Hsame. destruct Hfix as [Hwritten|[-> Hsame']]; [by left|by right].
Qed.

Lemma addRuleSeverity_inr map fileFailures st result st' :
  addRuleSeverity map fileFailures st = (inr result, st') ->
  result = stamped map <$> fileFailures.
Proof.
  revert result st'. induction fileFailures as [|first rest IH]; intros result st'; simpl.
  - by intros [= <- _].
  - destruct (map !! getRuleName first) as [severity|] eqn:Hs;
      [|unfold throw; intros Hthrown; discriminate Hthrown].
    intros Hrun. apply bind_inr_inv in Hrun as (rest' & st1 & Hrest & Hret).
    unfold ret in Hret. injection Hret as <- _.
    unfold stamped at 1. rewrite Hs. f_equal. by eapply IH.
Qed.


(** X15.  Without a program, when [lint] applies fixes and returns, the
    failures it appends are those the enabled rules report on the parse of
    the text the fix loop ended with, each with the severity of its rule;
    and that text is what the disk holds for the linted file, unless the loop
    wrote nothing to it: then it is the text [lint] was given. *)
Theorem lint_reports_fixed_text_without_program source configuration st st' :
  let enabledRules := getEnabledRules options configuration (isJsFileName sourceFilePath) in
  fixOption options = true ->
  existsb hasFix (allFailures None (utils_getSourceFile sourceFilePath source) enabledRules)
  = true ->
  lint options None sourceFilePath source configuration st = (inr tt, st') ->
  exists text,
    failures st'
    = failures st ++ (stamped (ruleSeverityMap enabledRules)
                        <$> allFailures None (utils_getSourceFile sourceFilePath text) enabledRules)
    /\ (disk st' !! here = Some text \/
        (text = source /\ disk st' !! here = disk st !! here)).
Proof.
  intros enabledRules Hfix Hfixable Hrun.
  set (sourceFile := utils_getSourceFile sourceFilePath source) in *.
  assert (getSourceFile None sourceFilePath source st = (inr sourceFile, st)) as Hview by done.
  destruct (getAllFailures_returns None sourceFile enabledRules st)
    as (st1 & Hall & (Hf1 & _ & Hd1 & _)).
  assert (allFailures None sourceFile enabledRules ≠ []) as Hsome.
  { intros Hnil. by rewrite Hnil in Hfixable. }
  rewrite (lint_nonempty _ _ _ _ _ _ _ _ _ Hview Hall Hsome) in Hrun.
  fold enabledRules in Hrun.
  apply bind_inr_inv in Hrun as (final & st2 & Hfinal & Hrun).
  apply bind_inr_inv in Hrun as (result & st3 & Hstamp & Hrun).
  pose proof (addRuleSeverity_state (ruleSeverityMap enabledRules) final st2) as Hsame.
  rewrite Hstamp in Hsame. simpl in Hsame. subst st3.
  apply addRuleSeverity_inr in Hstamp. subst result.
  injection Hrun as <-.
  pose proof (finalBatch_failures _ _ _ _ _ _ _ _ _ Hfinal) as Hf2.
  unfold finalBatch in Hfinal. rewrite Hfix, Hfixable in Hfinal. simpl in Hfinal.
  pose proof Hfinal as Hloop. unfold applyAllFixes in Hloop.
  apply bind_inr_inv in Hloop as (current & stL & Hloop & Hrecompute).
  destruct (getAllFailures_returns None (fst current) enabledRules stL)
    as (st2' & E & (_ & _ & Hd2 & _)).
  rewrite E in Hrecompute. injection Hrecompute as <- <-.
  exists (snd current). simpl. split.
  - rewrite Hf2, Hf1. do 2 f_equal.
    by rewrite (fixRules_without_program None sourceFilePath _ _ _ _ _ _ eq_refl Hloop).
  - rewrite Hd2. apply fixRules_here_cases in Hloop. simpl in Hloop.
    by rewrite Hd1 in Hloop.
Qed.

End WithoutProgram.


Lemma lint_reports_fixed_text_without_program_witness :
  exists text,
    disk (snd (lint Demo.fixing None "a.ts" "var x"
                 (Demo.config [mkOptions "no-var" error; mkOptions "max-length" warning])
                 (Demo.onDisk [("/repo/a.ts", "var x")]))) !! "/repo/a.ts" = Some text /\
    failures (snd (lint Demo.fixing None "a.ts" "var x"
                 (Demo.config [mkOptions "no-var" error; mkOptions "max-length" warning])
                 (Demo.onDisk [("/repo/a.ts", "var x")])))
    = [] ++ (stamped (ruleSeverityMap
                        (getEnabledRules Demo.fixing
                           (Demo.config [mkOptions "no-var" error;
                                         mkOptions "max-length" warning])
                           (isJsFileName "a.ts")))
               <$> allFailures None (utils_getSourceFile "a.ts" text)
                     (getEnabledRules Demo.fixing
                        (Demo.config [mkOptions "no-var" error;
                                      mkOptions "max-length" warning])
                        (isJsFileName "a.ts"))).
Proof.
  destruct (lint_reports_fixed_text_without_program Demo.fixing "a.ts" "var x"
              (Demo.config [mkOptions "no-var" error; mkOptions "max-length" warning])
              (Demo.onDisk [("/repo/a.ts", "var x")])
              (snd (lint Demo.fixing None "a.ts" "var x"
                      (Demo.config [mkOptions "no-var" error;
                                    mkOptions "max-length" warning])
                      (Demo.onDisk [("/repo/a.ts", "var x")]))))
    as (text & Hfailures & [Hdisk|[-> Hdisk]]);
    [reflexivity | reflexivity | vm_compute; reflexivity | |].
  - by exists text.
  - exists "var x". split; [|exact Hfailures]. etrans; [exact Hdisk|reflexivity].
Defined.

(** ** File names *)

Lemma endsWith_spec suffix s :
  endsWith suffix s = true <-> exists stem, s = stem +:+ suffix.
Proof.
  split.
  - induction s as [|c s IH]; simpl.
    + rewrite orb_false_r. intros ->%String.eqb_eq. exists EmptyString. reflexivity.
    + intros [->%String.eqb_eq|Hrest]%orb_true_iff; [exists EmptyString; reflexivity|].
      destruct (IH Hrest) as (stem & ->). exists (String c stem). reflexivity.
  - intros (stem & ->). induction stem as [|c stem IH].
    + change (EmptyString +:+ suffix) with suffix.
      destruct suffix as [|a suffix]; [done|]. cbn [endsWith]. by rewrite String.eqb_refl.
    + change (String c stem +:+ suffix) with (String c (stem +:+ suffix)).
      cbn [endsWith]. rewrite IH. apply orb_true_r.
Qed.

Lemma lowerAscii_idempotent c : lowerAscii (lowerAscii c) = lowerAscii c.
Proof. destruct c as [[] [] [] [] [] [] [] []]; reflexivity. Qed.

Lemma lowerCase_idempotent s : lowerCase (lowerCase s) = lowerCase s.
Proof.
  induction s as [|c s IH]; simpl; [done|]. by rewrite lowerAscii_idempotent, IH.
Qed.

(** X16.  The test [lint] uses to pick [jsRules] holds exactly for the file
    names that end in [.js] or [.jsx] once their letters are lowered, so the
    case of the name plays no part. *)
Theorem isJsFileName_spec fileName :
  (isJsFileName fileName = true <->
   exists stem, lowerCase fileName = stem +:+ ".js" \/
                lowerCase fileName = stem +:+ ".jsx") /\
  isJsFileName (lowerCase fileName) = isJsFileName fileName.
Proof.
  split.
  - unfold isJsFileName. rewrite orb_true_iff, !endsWith_spec. naive_solver.
  - unfold isJsFileName. by rewrite lowerCase_idempotent.
Qed.

Lemma string_length_append s t :
  String.length (s +:+ t) = String.length s + String.length t.
Proof.
  induction s as [|c s IH]; [done|].
  change (String c s +:+ t) with (String c (s +:+ t)). simpl. by rewrite IH.
Qed.

Lemma substring_skip stem count t :
  String.substring (String.length stem) count (stem +:+ t) = String.substring 0 count t.
Proof.
  induction stem as [|c stem IH]; [done|].
  change (String c stem +:+ t) with (String c (stem +:+ t)). exact IH.
Qed.

Lemma substring_whole t : String.substring 0 (String.length t) t = t.
Proof. induction t as [|c t IH]; simpl; [done|]. by rewrite IH. Qed.

Lemma substring_length_le start count s :
  String.length (String.substring start count s) <= String.length s - start.
Proof.
  revert start count. induction s as [|c s IH]; intros start count.
  - destruct start, count; simpl; lia.
  - destruct start as [|start].
    + destruct count as [|count]; simpl; [lia|]. specialize (IH 0 count). lia.
    + simpl. apply IH.
Qed.

Lemma substring_split start s :
  s = String.substring 0 start s +:+ String.substring start (String.length s - start) s.
Proof.
  revert start. induction s as [|c s IH]; intros start.
  - by destruct start.
  - destruct start as [|start]; simpl.
    + by rewrite substring_whole.
    + change (String c ?x +:+ ?y) with (String c (x +:+ y)). f_equal. apply IH.
Qed.

Lemma substrFromEnd_spec suffix s :
  substrFromEnd (String.length suffix) s = suffix <-> exists stem, s = stem +:+ suffix.
Proof.
  unfold substrFromEnd. split.
  - intros Hlast. exists (String.substring 0 (String.length s - String.length suffix) s).
    pose proof (substring_length_le (String.length s - String.length suffix)
                  (String.length suffix) s) as Hle.
    rewrite Hlast in Hle.
    pose proof (substring_split (String.length s - String.length suffix) s) as Hsplit.
    replace (String.length s - (String.length s - String.length suffix))
      with (String.length suffix) in Hsplit by lia.
    by rewrite Hlast in Hsplit.
  - intros (stem & ->). rewrite string_length_append.
    replace (String.length stem + String.length suffix - String.length suffix)
      with (String.length stem) by lia.
    rewrite substring_skip. apply substring_whole.
Qed.

(** X17.  [getFileNames] returns, in the order of the program, the names of
    its source files that do not end in [.d.ts]; a name is left out for that
    ending alone, spelled in lower case. *)
Theorem getFileNames_spec sourceFiles name :
  (name ∈ getFileNames sourceFiles <->
   (exists sourceFile, sourceFile ∈ sourceFiles /\ ts.fileName sourceFile = name) /\
   ~ exists stem, name = stem +:+ ".d.ts") /\
  getFileNames sourceFiles `sublist_of` map ts.fileName sourceFiles.
Proof.
  split.
  - unfold getFileNames. rewrite list_elem_of_In, filter_In, <- list_elem_of_In.
    rewrite list_elem_of_fmap, negb_true_iff.
    rewrite <- (substrFromEnd_spec ".d.ts" name).
    change (String.length ".d.ts") with 5.
    destruct (String.eqb_spec (substrFromEnd 5 name) ".d.ts"); naive_solver.
  - unfold getFileNames. induction (map ts.fileName sourceFiles) as [|l rest IH]; simpl.
    + constructor.
    + destruct (negb _); by constructor.
Qed.

Example getFileNames_keeps_upper_case :
  getFileNames [ts.mkSourceFile "a.ts" EmptyString; ts.mkSourceFile "lib.d.ts" EmptyString;
                ts.mkSourceFile "X.D.TS" EmptyString; ts.mkSourceFile "d.ts" EmptyString]
  = ["a.ts"; "X.D.TS"; "d.ts"].
Proof. reflexivity. Qed.

(** ** Dispatch *)

Section Dispatch.
Context `{Collaborators}.
Variable program : option ts.Program.

Local Abbreviation crashes sourceFile :=
  (fun rule : IRule =>
     match ruleOutcome program rule sourceFile with inl _ => true | inr _ => false end).




End Dispatch.

Lemma lint_appends_stamped_batch_witness :
  exists st',
    lint Demo.reporting None "a.ts" "var x"
         (Demo.config [mkOptions "no-var" error; mkOptions "semicolon" warning])
         Demo.emptyState = (inr tt, st') /\
    (getRuleSeverity <$> failures st') = [error; warning].
Proof.
  destruct (lint_appends_stamped_batch Demo.reporting None "a.ts" "var x"
              (Demo.config [mkOptions "no-var" error; mkOptions "semicolon" warning])
              Demo.emptyState (ts.mkSourceFile "a.ts" "var x"))
    as (st' & Hrun & Hfailures & _); [reflexivity | reflexivity | |].
  - intros failure Hin. vm_compute in Hin.
    apply elem_of_cons in Hin as [->|Hin].
    { eexists. split; [apply list_elem_of_here|reflexivity]. }
    apply list_elem_of_singleton in Hin as ->.
    eexists. split; [apply list_elem_of_further, list_elem_of_here|reflexivity].
  - exists st'. split; [exact Hrun|]. rewrite Hfailures. reflexivity.
Defined.

Lemma applyFixes_writes_each_file_once_witness :
  exists log,
    writes (snd (applyFixes "a.ts" "var x"
                   [mkRuleFailure "header-sync" "other.ts" 0 0 "Missing header"
                      (Some [Replacement.mk 0 0 "// header "]) error;
                    Demo.failureAt "no-var" (ts.mkSourceFile "a.ts" "var x") 0 3
                      "Forbidden 'var' keyword" (Some [Replacement.mk 0 3 "const"]);
                    mkRuleFailure "header-sync" "other.ts" 0 0 "Missing header"
                      (Some [Replacement.mk 0 0 "// header "]) error]
                   (Demo.onDisk [("/repo/other.ts", "body")]))) = [] ++ log /\
    log.*1 = ["other.ts"; "a.ts"].
Proof.
  destruct (applyFixes_writes_each_file_once "a.ts" "var x"
              [mkRuleFailure "header-sync" "other.ts" 0 0 "Missing header"
                 (Some [Replacement.mk 0 0 "// header "]) error;
               Demo.failureAt "no-var" (ts.mkSourceFile "a.ts" "var x") 0 3
                 "Forbidden 'var' keyword" (Some [Replacement.mk 0 3 "const"]);
               mkRuleFailure "header-sync" "other.ts" 0 0 "Missing header"
                 (Some [Replacement.mk 0 0 "// header "]) error]
              (Demo.onDisk [("/repo/other.ts", "body")])
              "const x"
              (snd (applyFixes "a.ts" "var x"
                   [mkRuleFailure "header-sync" "other.ts" 0 0 "Missing header"
                      (Some [Replacement.mk 0 0 "// header "]) error;
                    Demo.failureAt "no-var" (ts.mkSourceFile "a.ts" "var x") 0 3
                      "Forbidden 'var' keyword" (Some [Replacement.mk 0 3 "const"]);
                    mkRuleFailure "header-sync" "other.ts" 0 0 "Missing header"
                      (Some [Replacement.mk 0 0 "// header "]) error]
                   (Demo.onDisk [("/repo/other.ts", "body")]))))
    as (log & Hlog & Hkeys & _); [vm_compute; reflexivity|].
  exists log. split; [exact Hlog|]. rewrite Hkeys. reflexivity.
Defined.

(** ** One iteration of the fix loop, file by file *)

Section FixProperties.
Context `{Collaborators}.
Variable program : option ts.Program.
Variable sourceFileName : string.

Local Abbreviation here := (path_resolve sourceFileName).

Lemma distinct_elem_of {K} `{EqDecision K} (keys : list K) k :
  k ∈ keys -> k ∈ distinct keys.
Proof.
  induction keys as [|k0 rest IH]; simpl; [done|].
  rewrite !elem_of_cons. intros Hin.
  destruct (decide (k = k0)) as [->|Hne]; [by left|].
  right. destruct Hin as [?|Hin]; [done|].
  apply list_elem_of_In, filter_In. split; [by apply list_elem_of_In, IH|].
  by rewrite bool_decide_eq_false_2.
Qed.

Lemma groupsOf_elem_of failure fixableFailures :
  failure ∈ fixableFailures ->
  (getFileName failure, fixesFor (getFileName failure) fixableFailures)
    ∈ groupsOf fixableFailures /\
  getFix failure ∈ fixesFor (getFileName failure) fixableFailures.
Proof.
  intros Hin. split.
  - unfold groupsOf. apply list_elem_of_fmap. exists (getFileName failure).
    split; [done|]. apply distinct_elem_of, list_elem_of_fmap. by exists failure.
  - unfold fixesFor. apply list_elem_of_fmap. exists failure. split; [done|].
    apply list_elem_of_In, filter_In. split; [by apply list_elem_of_In|].
    apply String.eqb_refl.
Qed.

Lemma aimedAt_elem_of resolved failure fixableFailures :
  failure ∈ aimedAt resolved fixableFailures <->
  failure ∈ fixableFailures /\ path_resolve (getFileName failure) = resolved.
Proof.
  unfold aimedAt. rewrite list_elem_of_In, filter_In, <- list_elem_of_In.
  by rewrite bool_decide_eq_true.
Qed.

(** The steps of an iteration that ended normally, with the groups said
    without the multimap. *)
Lemma fixRule_steps rule sourceFile source st sourceFile' source' st' :
  fixRule program sourceFileName rule (sourceFile, source) st
  = (inr (sourceFile', source'), st') ->
  exists st0,
    disk st0 = disk st /\ writes st0 = writes st /\ fixes st0 = fixes st /\
    forEach (groupsOf (freshFixableFailures program rule sourceFile))
            (applyFileFixes sourceFileName) source
            (set_fixes (fixes st0 ++ freshFixableFailures program rule sourceFile) st0)
    = (inr source', st').
Proof.
  intros Hrun. apply fixRule_inr in Hrun as (st0 & (_ & Hfixes & Hdisk & Hwrites) & Hfix & _).
  exists st0. split_and!; [done..|].
  unfold applyFixes in Hfix. by rewrite fixesByFile_groupsOf in Hfix.
Qed.


(** C10.  In an iteration of the fix loop that ends without an
    error and whose rule reports a fixable failure for the linted file, the
    text merged from those failures is on the disk when the iteration ends:
    the iteration has overwritten the linted file once for each file name
    under which those failures are reported, each time with the text merged
    so far, the last time with the merged text it hands on; when the
    failures name the file alike that is one overwrite. *)
Theorem fixed_text_is_written_each_iteration
    rule sourceFile source st sourceFile' source' st' :
  let mine := aimedAt here (freshFixableFailures program rule sourceFile) in
  fixRule program sourceFileName rule (sourceFile, source) st
  = (inr (sourceFile', source'), st') ->
  existsb (targets sourceFileName) (freshFixableFailures program rule sourceFile) = true ->
  source' = mergeGroups source (groupsOf mine) /\
  disk st' !! here = Some source' /\
  exists log,
    writes st' = writes st ++ log /\
    writesTo here log = mergeWrites source (groupsOf mine) /\
    length (writesTo here log) = length (fileNames mine) /\
    (exists filePath, last (writesTo here log) = Some (filePath, source')) /\
    forall filePath,
      (forall f, f ∈ mine -> getFileName f = filePath) ->
      source' = Replacement_applyFixes source (getFix <$> mine) /\
      writesTo here log = [(filePath, source')].
Proof.
  intros mine Hrun Hsome.
  apply existsb_exists in Hsome as (f & Hin & Hf).
  apply list_elem_of_In in Hin. apply bool_decide_eq_true_1 in Hf.
  assert (f ∈ mine) as Hmine by by apply aimedAt_elem_of.
  destruct (groupsOf_elem_of f _ Hmine) as [Hgroup _].
  assert (groupsOf mine ≠ []) as Hgroups.
  { intros Hnil. rewrite Hnil in Hgroup. by apply elem_of_nil in Hgroup. }
  apply fixRule_steps in Hrun as (st0 & Hdisk & Hwrites & Hfixes & Hfix).
  pose proof (forEach_source _ _ _ _ _ _ Hfix) as Hsource.
  rewrite groupsOf_aimedAt in Hsource. fold mine in Hsource.
  destruct (forEach_log _ _ _ _ _ _ Hfix) as (log & Hlog & Hwritten & _).
  rewrite groupsOf_aimedAt in Hwritten. fold mine in Hwritten.
  simpl in Hlog. rewrite Hwrites in Hlog.
  split; [done|]. split.
  { apply (forEach_disk_here _ _ _ _ _ _ Hfix).
    rewrite groupsOf_aimedAt. exact Hgroups. }
  exists log. split_and!; [done..| | |].
  - rewrite Hwritten, <- (length_fmap fst), mergeWrites_keys.
    unfold groupsOf. by rewrite <- list_fmap_compose, list_fmap_id.
  - rewrite Hwritten, Hsource. by apply mergeWrites_last.
  - intros filePath Halike.
    assert (mine ≠ []) as Hnonempty.
    { intros Hnil. rewrite Hnil in Hmine. by apply elem_of_nil in Hmine. }
    rewrite Hwritten, Hsource, (groupsOf_alike filePath mine Hnonempty Halike). done.
Qed.

End FixProperties.


Lemma fixed_text_is_written_each_iteration_witness :
  let st := Demo.onDisk [("/repo/a.ts", "var x")] in
  let run := fixRule None "a.ts" (mkRule (mkOptions "no-var" error) Demo.noVar None)
               (ts.mkSourceFile "a.ts" "var x", "var x") st in
  fst run = inr (ts.mkSourceFile "a.ts" "const x", "const x") /\
  disk (snd run) !! "/repo/a.ts" = Some "const x" /\
  exists log, writes (snd run) = [] ++ log /\
              writesTo "/repo/a.ts" log = [("a.ts", "const x")].
Proof.
  intros st run.
  destruct (fixed_text_is_written_each_iteration None "a.ts"
              (mkRule (mkOptions "no-var" error) Demo.noVar None)
              (ts.mkSourceFile "a.ts" "var x") "var x" st
              (ts.mkSourceFile "a.ts" "const x") "const x" (snd run))
    as (_ & Hdisk & log & Hlog & _ & _ & _ & Halike);
    [vm_compute; reflexivity | reflexivity |].
  split_and!; [vm_compute; reflexivity | exact Hdisk |].
  exists log. split; [exact Hlog|].
  apply (Halike "a.ts"). intros f Hf. vm_compute in Hf.
  apply list_elem_of_singleton in Hf. by subst f.
Defined.

(** An iteration whose rule reports fixable failures for the linted file
    under two spellings of its name overwrites the file twice. *)
Lemma one_iteration_can_overwrite_twice :
  let st := Demo.onDisk [("/repo/a.ts", "x")] in
  let run := fixRule None "a.ts"
               (mkRule (mkOptions "two-spellings" error) Demo.twoSpellings None)
               (ts.mkSourceFile "a.ts" "x", "x") st in
  fst run = inr (ts.mkSourceFile "a.ts" "21x", "21x") /\
  writesTo "/repo/a.ts" (writes (snd run)) = [("a.ts", "1x"); ("./a.ts", "21x")] /\
  length (writesTo "/repo/a.ts" (writes (snd run))) ≠ 1.
Proof. vm_compute. by repeat split. Qed.

(** A write that fails ends the iteration: the error of [writeFileSync]
    comes out, the disk is as it was, and the fix is on record all the
    same. *)
Example write_failure_ends_the_iteration :
  let st := Demo.unwritable [("/repo/a.ts", Error "EACCES: permission denied, open 'a.ts'")]
              (Demo.onDisk [("/repo/a.ts", "var x")]) in
  let run := fixRule None "a.ts" (mkRule (mkOptions "no-var" error) Demo.noVar None)
               (ts.mkSourceFile "a.ts" "var x", "var x") st in
  fst run = inl (Error "EACCES: permission denied, open 'a.ts'") /\
  disk (snd run) = disk st /\ writes (snd run) = [] /\ length (fixes (snd run)) = 1.
Proof. vm_compute. by repeat split. Qed.

(** So does a file that is there and cannot be read. *)
Example read_failure_ends_the_iteration :
  let st := Demo.unreadable [("/repo/other.ts", Error "EACCES: permission denied, open 'other.ts'")]
              (Demo.onDisk [("/repo/a.ts", "var x"); ("/repo/other.ts", "body")]) in
  let run := fixRule None "a.ts" (mkRule (mkOptions "header-sync" error) Demo.headerSync None)
               (ts.mkSourceFile "a.ts" "var x", "var x") st in
  fst run = inl (Error "EACCES: permission denied, open 'other.ts'") /\
  disk (snd run) = disk st /\ writes (snd run) = [].
Proof. vm_compute. by repeat split. Qed.
